(** * Tactus hypothesis tracker: a shallow embedding of
    [tactus/tactus_hypothesis_tracker.py] and the properties of its
    generation / update / trimming / selection loop.

    Conventions of the embedding.

    - Python numbers that the engine only adds, subtracts and compares
      (onset times, confidences, similarities, the thresholds) are rationals
      [Q]; Python integers used as positions and names are [Z]; positions
      produced by [enumerate] are [nat].
    - A raised exception is [None] in the [option] monad.  The only exception
      the engine itself can raise is [IndexError] (indexing a list).
    - A tracker is a mutable Python object.  Every tracker is constructed in
      [_generate_new_hypothesis] and from then on is referenced from exactly
      one slot of the population list, so the population is a list of records
      and [update] returns the record after the mutation.
    - The evaluation, correction and similarity callables are total pure
      functions of their arguments. *)

From Stdlib Require Import QArith Lqa.
From Equations Require Import Equations.
From stdpp Require Import gmap list sorting.

Local Open Scope Z_scope.

(** The equations of the two loops are proved without functional
    extensionality. *)
#[local] Unset Equations With Funext.

(** ** Python list primitives *)

(** [l[i]] for a Python list: negative positions count from the end, anything
    outside [-len, len) raises [IndexError]. *)
Definition py_getitem {A} (l : list A) (i : Z) : option A :=
  let n := Z.of_nat (length l) in
  if (0 <=? i) && (i <? n) then l !! Z.to_nat i
  else if (- n <=? i) && (i <? 0) then l !! Z.to_nat (n + i)
  else None.

(** [l[:k]]: a negative [k] counts from the end and the bounds are clipped. *)
Definition py_slice_to {A} (l : list A) (k : Z) : list A :=
  if 0 <=? k then take (Z.to_nat k) l
  else take (Z.to_nat (Z.of_nat (length l) + k)) l.

(** [xrange(n)]: [0, 1, ..., n-1], empty when [n <= 0]. *)
Definition xrange (n : Z) : list Z := Z.of_nat <$> seq 0 (Z.to_nat n).

(** [enumerate(l)] as a list. *)
Definition enumerate {A} (l : list A) : list (nat * A) := imap pair l.

(** Comparison of two [(number, int)] tuples with [<], as Python compares
    tuples: the first components decide unless they are equal. *)
Definition tuple_lt (a b : Q * nat) : bool :=
  if Qeq_bool a.1 b.1 then Nat.ltb a.2 b.2
  else negb (Qle_bool b.1 a.1).

(** [sorted(l)] on such tuples.  Python's sort is stable and only uses [<];
    the model is the stable insertion sort. *)
Fixpoint sorted_insert (x : Q * nat) (l : list (Q * nat)) : list (Q * nat) :=
  match l with
  | [] => [x]
  | y :: l' => if tuple_lt y x then y :: sorted_insert x l' else x :: l
  end.

Fixpoint sorted (l : list (Q * nat)) : list (Q * nat) :=
  match l with
  | [] => []
  | x :: l' => sorted_insert x (sorted l')
  end.

(** ** The playback cursor *)

Module playback.

(** Modelled from the spec: the module [playback] and its class
    [OngoingPlayback] are not part of the sources.  Section 6 of the
    specification gives the contract: the cursor is built from the onset
    sequence, [onset_times] reads the whole sequence, [discovered_index] is
    the index of the most recently revealed onset, and [advance] moves the
    cursor by one position and answers [True], or answers [False] once the
    sequence is exhausted. *)
Record OngoingPlayback := {
  onset_times : list Q;
  discovered_index : Z
}.

Section Cursor.

(** Modelled from the spec: the specification does not say where the
    cursor stands before the first [advance]; the position is left open
    ([-1] when no onset is revealed at construction, [0] when the first
    one is). *)
Variable first_index : Z.

Definition new (onsets : list Q) : OngoingPlayback :=
  {| onset_times := onsets; discovered_index := first_index |}.

End Cursor.

(** Modelled from the spec: [advance] of the missing class.  [Some p'] is
    the cursor after a call that answered [True], [None] stands for the
    answer [False] (the cursor is not read afterwards). *)
Definition advance (p : OngoingPlayback) : option OngoingPlayback :=
  if discovered_index p + 1 <? Z.of_nat (length (onset_times p))
  then Some {| onset_times := onset_times p;
               discovered_index := discovered_index p + 1 |}
  else None.

(** Number of calls of [advance] that still answer [True]. *)
Definition remaining (p : OngoingPlayback) : nat :=
  Z.to_nat (Z.of_nat (length (onset_times p)) - 1 - discovered_index p).

End playback.

(** ** The base hypothesis *)

Module hypothesis.

(** Modelled from the spec: the module [hypothesis] and its class
    [HypothesisFromIndex] are not part of the sources.  By sections 2, 3
    and 4.1 of the specification the constructor names the hypothesis by
    the pair of onset indices and computes the initial [(rho, delta)] from
    the two onsets: [rho] is the first onset and [rho + delta] the second.
    The result is the pair [(name, htuple)]. *)
Definition HypothesisFromIndex (start_idx end_idx : Z) (onset_times : list Q)
  : option ((Z * Z) * (Q * Q)) :=
  rho ← py_getitem onset_times start_idx;
  e ← py_getitem onset_times end_idx;
  Some ((start_idx, end_idx), (rho, (e - rho)%Q)).

End hypothesis.

(** ** Trackers *)

(** The interface of the objects returned by the correction function. *)
Class HypothesisCorrection (C : Type) := {
  new_hypothesis : C → Q * Q
}.

Section Tracker.

Context {Correction : Type} `{!HypothesisCorrection Correction}.

Record HypothesisTracker := {
  name : Z * Z;
  htuple : Q * Q;
  beta : Q * Q;
  onset_times : list Q;
  corr : list (Z * Correction);
  confs : list (Z * Q)
}.

Definition set_corr (v : list (Z * Correction)) (h : HypothesisTracker) :=
  {| name := name h; htuple := htuple h; beta := beta h;
     onset_times := onset_times h; corr := v; confs := confs h |}.

Definition set_htuple (v : Q * Q) (h : HypothesisTracker) :=
  {| name := name h; htuple := v; beta := beta h;
     onset_times := onset_times h; corr := corr h; confs := confs h |}.

Definition set_confs (v : list (Z * Q)) (h : HypothesisTracker) :=
  {| name := name h; htuple := htuple h; beta := beta h;
     onset_times := onset_times h; corr := corr h; confs := v |}.

(** [HypothesisTracker.__init__] *)
Definition HypothesisTracker_init (start_idx end_idx : Z) (onsets : list Q)
  : option HypothesisTracker :=
  '(nm, ht) ← hypothesis.HypothesisFromIndex start_idx end_idx onsets;
  Some {| name := nm; htuple := ht; beta := ht; onset_times := onsets;
          corr := []; confs := [] |}.

(** [HypothesisTracker.update] *)
Definition update (self : HypothesisTracker)
    (ongoing_play : playback.OngoingPlayback)
    (eval_f : HypothesisTracker → playback.OngoingPlayback → Q)
    (corr_f : HypothesisTracker → playback.OngoingPlayback → Correction)
  : HypothesisTracker :=
  let correction := corr_f self ongoing_play in
  let self := set_corr (corr self ++
                [(playback.discovered_index ongoing_play, correction)]) self in
  let self := set_htuple (new_hypothesis correction) self in
  let n_conf := eval_f self ongoing_play in
  set_confs (confs self ++
               [(playback.discovered_index ongoing_play, n_conf)]) self.

(** The property [cur]. *)
Definition cur (self : HypothesisTracker) : Q * Q := htuple self.

(** The property [conf]: [self.confs[-1][1]]. *)
Definition conf (self : HypothesisTracker) : option Q :=
  snd <$> py_getitem (confs self) (-1).

(** [origin_onsets] *)
Definition origin_onsets (self : HypothesisTracker) : Q * Q :=
  ((beta self).1, ((beta self).1 + (beta self).2)%Q).

End Tracker.

Arguments HypothesisTracker Correction : clear implicits.

(** ** The engine *)

(** A value together with the equation that it is the value of [a]; used to
    keep the result of a loop test in scope of the termination argument. *)
Definition inspect {A} (a : A) : {b : A | a = b} := exist _ a eq_refl.

(** [dict(l)] for a list of key/value pairs: a later pair overrides an
    earlier one with the same key. *)
Definition py_dict `{Countable K} {V} (l : list (K * V)) : gmap K V :=
  foldl (λ m kv, <[kv.1 := kv.2]> m) ∅ l.

(** The configuration held by a [TactusHypothesisTracker] object. *)
Record TactusHypothesisTracker (Correction : Type) := {
  eval_f : HypothesisTracker Correction → playback.OngoingPlayback → Q;
  corr_f : HypothesisTracker Correction → playback.OngoingPlayback → Correction;
  sim_f : HypothesisTracker Correction → HypothesisTracker Correction →
          playback.OngoingPlayback → Q;
  similarity_epsilon : Q;
  min_delta : Q;
  max_delta : Q;
  max_hypotheses : Z
}.

Arguments eval_f {Correction} _ _ _.
Arguments corr_f {Correction} _ _ _.
Arguments sim_f {Correction} _ _ _ _.
Arguments similarity_epsilon {Correction} _.
Arguments min_delta {Correction} _.
Arguments max_delta {Correction} _.
Arguments max_hypotheses {Correction} _.

(** The values of the local variables of one iteration of the loop of
    [__call__], at the end of the iteration.  [hypothesis_trackers] is the
    population after the [extend] and the [update] of every member, before
    it is reassigned. *)
Record Locals (Correction : Type) := {
  n_hts : list (HypothesisTracker Correction);
  hypothesis_trackers : list (HypothesisTracker Correction);
  kept_hs : list (HypothesisTracker Correction);
  trimmed_hs : list (HypothesisTracker Correction * HypothesisTracker Correction);
  k_best_hs : list (HypothesisTracker Correction);
  other_hs : list (HypothesisTracker Correction)
}.

Arguments n_hts {Correction} _.
Arguments hypothesis_trackers {Correction} _.
Arguments kept_hs {Correction} _.
Arguments trimmed_hs {Correction} _.
Arguments k_best_hs {Correction} _.
Arguments other_hs {Correction} _.

Section Engine.

Context {Correction : Type} `{!HypothesisCorrection Correction}.

Local Abbreviation HT := (HypothesisTracker Correction).
Local Abbreviation Config := (TactusHypothesisTracker Correction).

(** The loop of [_generate_new_hypothesis] over the values [ks] that
    [xrange(end_index)] still has to deliver; the result is the list of the
    yielded trackers. *)
Fixpoint generate_loop (self : Config) (ongoing_play : playback.OngoingPlayback)
    (end_index : Z) (ks : list Z) : option (list HT) :=
  match ks with
  | [] => Some []
  | k :: ks' =>
      a ← py_getitem (playback.onset_times ongoing_play) end_index;
      b ← py_getitem (playback.onset_times ongoing_play) k;
      let delta := (a - b)%Q in
      if Qle_bool (min_delta self) delta && Qle_bool delta (max_delta self)
      then
        ht ← HypothesisTracker_init k end_index
               (playback.onset_times ongoing_play);
        rest ← generate_loop self ongoing_play end_index ks';
        Some (ht :: rest)
      else generate_loop self ongoing_play end_index ks'
  end.

(** [list(self._generate_new_hypothesis(ongoing_play))] *)
Definition _generate_new_hypothesis (self : Config)
    (ongoing_play : playback.OngoingPlayback) : option (list HT) :=
  let end_index := playback.discovered_index ongoing_play - 1 in
  generate_loop self ongoing_play end_index (xrange end_index).

(** The inner [while] of [_trim_similar_hypotheses]: the candidates left in
    [remaining_hts] are compared with the representative [ht]; the result
    is [(n_remaining_hts, trimmed_hs_data)] when the deque is empty. *)
Fixpoint trim_compare (self : Config) (ongoing_play : playback.OngoingPlayback)
    (ht : HT) (remaining_hts n_remaining_hts : list HT)
    (trimmed_hs_data : list (HT * HT)) : list HT * list (HT * HT) :=
  match remaining_hts with
  | [] => (n_remaining_hts, trimmed_hs_data)
  | n_ht :: remaining_hts =>
      let s := sim_f self ht n_ht ongoing_play in
      if negb (Qle_bool s (1 - similarity_epsilon self))
      then trim_compare self ongoing_play ht remaining_hts n_remaining_hts
             (trimmed_hs_data ++ [(n_ht, ht)])
      else trim_compare self ongoing_play ht remaining_hts
             (n_remaining_hts ++ [n_ht]) trimmed_hs_data
  end.

(** The outer [while] of [_trim_similar_hypotheses]; the result is
    [(kept_hs, trimmed_hs_data)] when [remaining_hts] is empty. *)
Equations? trim_loop (self : Config) (ongoing_play : playback.OngoingPlayback)
    (remaining_hts kept_hs : list HT) (trimmed_hs_data : list (HT * HT))
  : list HT * list (HT * HT) by wf (length remaining_hts) lt :=
  trim_loop self ongoing_play [] kept_hs trimmed_hs_data :=
    (kept_hs, trimmed_hs_data);
  trim_loop self ongoing_play (ht :: remaining_hts) kept_hs trimmed_hs_data :=
    trim_loop self ongoing_play
      (trim_compare self ongoing_play ht remaining_hts [] trimmed_hs_data).1
      (kept_hs ++ [ht])
      (trim_compare self ongoing_play ht remaining_hts [] trimmed_hs_data).2.
Proof.
  assert (G : ∀ r acc t,
    (length (trim_compare self ongoing_play ht r acc t).1
       ≤ length acc + length r)%nat).
  { induction r as [|x r IH]; intros acc t; simpl; [lia|].
    destruct (negb _); [specialize (IH acc (t ++ [(x, ht)])); lia|].
    specialize (IH (acc ++ [x]) t). rewrite length_app in IH. simpl in IH. lia. }
  specialize (G remaining_hts [] trimmed_hs_data). simpl in *. lia.
Qed.

(** [_trim_similar_hypotheses] *)
Definition _trim_similar_hypotheses (self : Config) (hts : list HT)
    (ongoing_play : playback.OngoingPlayback) : list HT * list (HT * HT) :=
  trim_loop self ongoing_play hts [] [].

(** [_split_k_best_hypotheses] *)
Definition _split_k_best_hypotheses (self : Config) (hts : list HT)
  : option (list HT * list HT) :=
  hts_info ← mapM (λ p : nat * HT, c ← conf p.2; Some ((-1 * c)%Q, p.1))
               (enumerate hts);
  let sorted_hts_info := sorted hts_info in
  let best_hts_idx : gset nat :=
    list_to_set (snd <$> py_slice_to sorted_hts_info (max_hypotheses self)) in
  let best_k_hts :=
    snd <$> filter (λ p : nat * HT, p.1 ∈ best_hts_idx) (enumerate hts) in
  let other_hts :=
    snd <$> filter (λ p : nat * HT, p.1 ∉ best_hts_idx) (enumerate hts) in
  Some (best_k_hts, other_hts).

(** The body of the [while] of [__call__], entered with the cursor
    [ongoing_play] just advanced and the population [hypothesis_trackers]. *)
Definition call_body (self : Config) (ongoing_play : playback.OngoingPlayback)
    (hypothesis_trackers : list HT) : option (Locals Correction) :=
  new_hts ← _generate_new_hypothesis self ongoing_play;
  let hypothesis_trackers := hypothesis_trackers ++ new_hts in
  let hypothesis_trackers :=
    (λ h, update h ongoing_play (eval_f self) (corr_f self))
      <$> hypothesis_trackers in
  let '(kept, trimmed) :=
    _trim_similar_hypotheses self hypothesis_trackers ongoing_play in
  '(k_best, other) ← _split_k_best_hypotheses self kept;
  Some {| n_hts := new_hts; hypothesis_trackers := hypothesis_trackers;
          kept_hs := kept;
          trimmed_hs := trimmed; k_best_hs := k_best; other_hs := other |}.

(** The [while ongoing_play.advance()] of [__call__]; the result is the
    population when [advance] answers [False]. *)
Equations? call_loop (self : Config) (ongoing_play : playback.OngoingPlayback)
    (hypothesis_trackers : list HT) : option (list HT)
    by wf (playback.remaining ongoing_play) lt :=
  call_loop self ongoing_play hypothesis_trackers
    with inspect (playback.advance ongoing_play) => {
    | exist _ None _ => Some hypothesis_trackers
    | exist _ (Some ongoing_play') Hadv
        with call_body self ongoing_play' hypothesis_trackers => {
        | None => None
        | Some locals => call_loop self ongoing_play' (k_best_hs locals) } }.
Proof.
  unfold playback.advance in Hadv.
  destruct (Z.ltb_spec (playback.discovered_index ongoing_play + 1)
              (Z.of_nat (length (playback.onset_times ongoing_play))))
    as [Hlt|Hge]; [|inversion Hadv].
  inversion Hadv; subst ongoing_play'. unfold playback.remaining. simpl. lia.
Qed.

Section Call.

(** The position of a fresh cursor, see [playback.new]. *)
Variable first_index : Z.

(** [__call__] *)
Definition call (self : Config) (onset_times : list Q)
  : option (gmap (Z * Z) HT) :=
  let ongoing_play := playback.new first_index onset_times in
  hypothesis_trackers ← call_loop self ongoing_play [];
  Some (py_dict ((λ ht, (name ht, ht)) <$> hypothesis_trackers)).

End Call.

End Engine.

(** ** Runs of the engine *)

Section Runs.

Context {Correction : Type} `{!HypothesisCorrection Correction}.

Local Abbreviation HT := (HypothesisTracker Correction).
Local Abbreviation Config := (TactusHypothesisTracker Correction).

(** One iteration of the loop of [__call__], from the cursor and the
    population before the test [advance()] to those after the body. *)
Definition engine_step (self : Config)
    (s s' : playback.OngoingPlayback * list HT) : Prop :=
  ∃ locals, playback.advance s.1 = Some s'.1 ∧
            call_body self s'.1 s.2 = Some locals ∧
            s'.2 = k_best_hs locals.

(** The states between iterations that a run started at [s] goes through. *)
Definition engine_steps (self : Config) := rtc (engine_step self).

(** The states of the run of [__call__] on [onsets]. *)
Definition reachable (first_index : Z) (self : Config) (onsets : list Q)
    (s : playback.OngoingPlayback * list HT) : Prop :=
  engine_steps self (playback.new first_index onsets, []) s.

End Runs.

(** ** The properties the specification states, in its own words *)

Section Specification.

Context {Correction : Type} `{!HypothesisCorrection Correction}.

Local Abbreviation HT := (HypothesisTracker Correction).
Local Abbreviation Config := (TactusHypothesisTracker Correction).

(** A tracker as its constructor leaves it. *)
Definition fresh (onsets : list Q) (h : HT) : Prop :=
  corr h = [] ∧ confs h = [] ∧ htuple h = beta h ∧ onset_times h = onsets.

(** Update: the tracker as [eval_f] receives it, corrected and not yet
    scored. *)
Definition corrected (h : HT) (p : playback.OngoingPlayback)
    (corr_f : HT → playback.OngoingPlayback → Correction) : HT :=
  set_htuple (new_hypothesis (corr_f h p))
    (set_corr (corr h ++ [(playback.discovered_index p, corr_f h p)]) h).

(** Generation: [delta = onset_times[end_index] - onset_times[k]] lies in
    [[min_delta, max_delta]]. *)
Definition delta_in_range (self : Config) (onsets : list Q)
    (end_index k : Z) : bool :=
  match py_getitem onsets end_index, py_getitem onsets k with
  | Some a, Some b =>
      Qle_bool (min_delta self) (a - b) && Qle_bool (a - b) (max_delta self)
  | _, _ => false
  end.

(** Trimming: [n] is a near-duplicate of the representative [ht]. *)
Definition similar (self : Config) (ongoing_play : playback.OngoingPlayback)
    (ht n : HT) : Prop :=
  (1 - similarity_epsilon self < sim_f self ht n ongoing_play)%Q.

#[global] Instance similar_dec self ongoing_play ht n :
  Decision (similar self ongoing_play ht n).
Proof.
  unfold similar.
  destruct (Qlt_le_dec (1 - similarity_epsilon self)
              (sim_f self ht n ongoing_play)) as [Hlt|Hle].
  - left. exact Hlt.
  - right. intros Hlt. exact (Qlt_not_le _ _ Hlt Hle).
Defined.

(** Trimming, the greedy representative scheme: the first tracker is kept
    as a representative, the later trackers similar to it are recorded as
    redundant with it, and the scheme is repeated on the others. *)
Inductive greedy_partition (self : Config)
    (ongoing_play : playback.OngoingPlayback)
  : list HT → list HT → list (HT * HT) → Prop :=
| greedy_done : greedy_partition self ongoing_play [] [] []
| greedy_representative ht rest kept trimmed :
    greedy_partition self ongoing_play
      (filter (λ n, ¬ similar self ongoing_play ht n) rest) kept trimmed →
    greedy_partition self ongoing_play (ht :: rest) (ht :: kept)
      (((λ n, (n, ht)) <$> filter (similar self ongoing_play ht) rest)
         ++ trimmed).

(** Selection: the stable sort by descending confidence of a list of
    [(position, confidence)] pairs given in generation order; a pair is
    moved past the pairs with a strictly greater confidence only. *)
Fixpoint rank_insert (x : nat * Q) (l : list (nat * Q)) : list (nat * Q) :=
  match l with
  | [] => [x]
  | y :: l' =>
      if negb (Qle_bool y.2 x.2) then y :: rank_insert x l' else x :: l
  end.

Fixpoint rank_by_confidence (l : list (nat * Q)) : list (nat * Q) :=
  match l with
  | [] => []
  | x :: l' => rank_insert x (rank_by_confidence l')
  end.

(** Selection: in the list sorted by descending confidence with ties in
    generation order, the entry [a] comes before the entry [b]. *)
Definition ranked_before (a b : nat * Q) : Prop :=
  (b.2 < a.2)%Q ∨ ((b.2 == a.2)%Q ∧ (a.1 < b.1)%nat).

(** Selection: the positions of the first [max_hypotheses] entries of the
    ranking of the latest confidences [cs]. *)
Definition chosen (self : Config) (cs : list Q) : list nat :=
  (take (Z.to_nat (max_hypotheses self))
     (rank_by_confidence (enumerate cs))).*1.

(** The tuple [_split_k_best_hypotheses] sorts for the tracker at position
    [x.1] with latest confidence [x.2]. *)
Definition info_of (x : nat * Q) : Q * nat := ((-1 * x.2)%Q, x.1).

(** The invariants of a tracker (section 3 of the specification). *)
Record tracker_invariant (h : HT) : Prop := {
  inv_lockstep : length (corr h) = length (confs h);
  inv_corr_increasing : StronglySorted Z.lt (fst <$> corr h);
  inv_confs_increasing : StronglySorted Z.lt (fst <$> confs h);
  inv_current :
    cur h = default (beta h) ((λ c, new_hypothesis c.2) <$> last (corr h))
}.

(** The history of [h] holds the same cursor positions on both sides, none
    beyond [d]. *)
Definition history_bound (d : Z) (h : HT) : Prop :=
  (corr h).*1 = (confs h).*1 ∧ Forall (λ i, i ≤ d) (corr h).*1.

(** A name is a pair of onset indices [0 <= k < end_index], generated
    before the cursor reached [d]. *)
Definition name_below (d : Z) (h : HT) : Prop :=
  0 ≤ (name h).1 < (name h).2 ∧ (name h).2 < d.

(** What holds of the population [l] while the cursor stands at [p]. *)
Record population_invariant (p : playback.OngoingPlayback) (l : list HT)
  : Prop := {
  pop_trackers : Forall tracker_invariant l;
  pop_history : Forall (history_bound (playback.discovered_index p)) l;
  pop_names : Forall (name_below (playback.discovered_index p)) l;
  pop_nodup : NoDup (name <$> l)
}.

(** Two configurations whose callables agree on every argument and whose
    numeric settings are the same. *)
Record same_configuration (c1 c2 : Config) : Prop := {
  same_eval : ∀ h p, eval_f c1 h p = eval_f c2 h p;
  same_corr : ∀ h p, corr_f c1 h p = corr_f c2 h p;
  same_sim : ∀ a b p, sim_f c1 a b p = sim_f c2 a b p;
  same_epsilon : similarity_epsilon c1 = similarity_epsilon c2;
  same_min : min_delta c1 = min_delta c2;
  same_max : max_delta c1 = max_delta c2;
  same_k : max_hypotheses c1 = max_hypotheses c2
}.

End Specification.

(** ** Further notions used to describe the code *)

(** The cursor over [onsets] when its discovered index is [d]. *)
Definition cursor_at (onsets : list Q) (d : Z) : playback.OngoingPlayback :=
  {| playback.onset_times := onsets; playback.discovered_index := d |}.

(** The name [n1] belongs to a tracker generated before the tracker named
    [n2]: at an earlier iteration, or earlier in the same iteration. *)
Definition generated_before (n1 n2 : Z * Z) : Prop :=
  n1.2 < n2.2 ∨ (n1.2 = n2.2 ∧ n1.1 < n2.1).

(** The number of entries of [l[:k]] for a list of [n] entries. *)
Definition slice_count (n : nat) (k : Z) : nat :=
  if 0 <=? k then (Z.to_nat k `min` n)%nat else Z.to_nat (Z.of_nat n + k).

Section Lifecycle.

Context {Correction : Type} `{!HypothesisCorrection Correction}.

Local Abbreviation HT := (HypothesisTracker Correction).
Local Abbreviation Config := (TactusHypothesisTracker Correction).

(** The tracker [h0] after the updates of the iterations that discover the
    indices [ds] of [onsets], in this order. *)
Definition replay (self : Config) (onsets : list Q) (h0 : HT) (ds : list Z)
  : HT :=
  foldl (λ h d, update h (cursor_at onsets d) (eval_f self) (corr_f self))
    h0 ds.

(** The similarity of [b] to [a] does not exceed the trimming threshold. *)
Definition dissimilar (self : Config) (p : playback.OngoingPlayback)
    (a b : HT) : Prop :=
  (sim_f self a b p <= 1 - similarity_epsilon self)%Q.

(** The tracker [h] is the tracker that the constructor builds for the
    origin [name h], a pair of onsets whose period passes the filter of the
    generation, updated at every discovered index from the one after its
    end index up to [d]. *)
Definition lives_since (self : Config) (onsets : list Q) (d : Z) (h : HT)
  : Prop :=
  ∃ h0, HypothesisTracker_init (name h).1 (name h).2 onsets = Some h0
        ∧ (name h).2 < d
        ∧ delta_in_range self onsets (name h).2 (name h).1
        ∧ h = replay self onsets h0
                (seqZ ((name h).2 + 1) (d - (name h).2)).

End Lifecycle.

(** ** Runs with any sorting algorithm

    [sorted] above is one sorting algorithm.  To state that a run does not
    depend on the algorithm, the selection and the loop are given again
    with the sorting function as an argument, held to what every sorting
    algorithm guarantees, stable or not. *)

(** What [sorted(l)] guarantees of [srt]: the result is a permutation of
    [l] in which no entry is less than an earlier one. *)
Definition sorting (srt : list (Q * nat) → list (Q * nat)) : Prop :=
  ∀ l, srt l ≡ₚ l ∧ StronglySorted (λ a b, tuple_lt b a = false) (srt l).

Section AnySort.

Context {Correction : Type} `{!HypothesisCorrection Correction}.

Local Abbreviation HT := (HypothesisTracker Correction).
Local Abbreviation Config := (TactusHypothesisTracker Correction).

(** [_split_k_best_hypotheses] with [srt] for [sorted]. *)
Definition split_k_best_with (srt : list (Q * nat) → list (Q * nat))
    (self : Config) (hts : list HT) : option (list HT * list HT) :=
  hts_info ← mapM (λ p : nat * HT, c ← conf p.2; Some ((-1 * c)%Q, p.1))
               (enumerate hts);
  let sorted_hts_info := srt hts_info in
  let best_hts_idx : gset nat :=
    list_to_set (snd <$> py_slice_to sorted_hts_info (max_hypotheses self)) in
  let best_k_hts :=
    snd <$> filter (λ p : nat * HT, p.1 ∈ best_hts_idx) (enumerate hts) in
  let other_hts :=
    snd <$> filter (λ p : nat * HT, p.1 ∉ best_hts_idx) (enumerate hts) in
  Some (best_k_hts, other_hts).

(** The body of the [while] of [__call__] with [srt] for [sorted]. *)
Definition call_body_with (srt : list (Q * nat) → list (Q * nat))
    (self : Config) (ongoing_play : playback.OngoingPlayback)
    (hypothesis_trackers : list HT) : option (Locals Correction) :=
  new_hts ← _generate_new_hypothesis self ongoing_play;
  let hypothesis_trackers := hypothesis_trackers ++ new_hts in
  let hypothesis_trackers :=
    (λ h, update h ongoing_play (eval_f self) (corr_f self))
      <$> hypothesis_trackers in
  let '(kept, trimmed) :=
    _trim_similar_hypotheses self hypothesis_trackers ongoing_play in
  '(k_best, other) ← split_k_best_with srt self kept;
  Some {| n_hts := new_hts; hypothesis_trackers := hypothesis_trackers;
          kept_hs := kept;
          trimmed_hs := trimmed; k_best_hs := k_best; other_hs := other |}.

(** [runs_to self p hts r]: the loop of [__call__], entered with the cursor
    [p] and the population [hts], ends with the population [r] when each
    iteration sorts with some sorting algorithm, not necessarily the same
    one from one iteration to the next. *)
Inductive runs_to (self : Config)
  : playback.OngoingPlayback → list HT → list HT → Prop :=
| runs_to_end p hts :
    playback.advance p = None → runs_to self p hts hts
| runs_to_iteration srt p p' hts locals r :
    sorting srt →
    playback.advance p = Some p' →
    call_body_with srt self p' hts = Some locals →
    runs_to self p' (k_best_hs locals) r →
    runs_to self p hts r.

(** [returns first_index self onsets m]: a run of [__call__] on [onsets]
    returns the mapping [m]. *)
Definition returns (first_index : Z) (self : Config) (onsets : list Q)
    (m : gmap (Z * Z) HT) : Prop :=
  ∃ r, runs_to self (playback.new first_index onsets) [] r
       ∧ m = py_dict ((λ ht, (name ht, ht)) <$> r).

(** The first [n] iterations of the loop with [srt] for [sorted], from the
    state [s]. *)
Fixpoint run_steps_with (srt : list (Q * nat) → list (Q * nat)) (n : nat)
    (self : Config) (s : playback.OngoingPlayback * list HT)
  : option (playback.OngoingPlayback * list HT) :=
  match n with
  | O => Some s
  | S n' =>
      p' ← playback.advance s.1;
      locals ← call_body_with srt self p' s.2;
      run_steps_with srt n' self (p', k_best_hs locals)
  end.

End AnySort.

(** Another sorting algorithm: the entries are inserted from the first to
    the last, so that entries that compare equal come out in the reverse of
    the order [sorted] gives them. *)
Definition sorted_backwards (l : list (Q * nat)) : list (Q * nat) :=
  foldl (λ acc x, sorted_insert x acc) [] l.

(** ** A concrete configuration

    Corrections are the new [(rho, delta)] itself.  The correction function
    shifts the phase by one, the confidence is the current phase, and two
    trackers are similar when they have the same phase.  On the onsets
    [0, 1, 2, 3, 4] with periods between 1 and 2 this configuration
    generates, trims and drops trackers. *)

#[global] Instance pair_correction : HypothesisCorrection (Q * Q) :=
  {| new_hypothesis := id |}.

Definition sample_config (k : Z) : TactusHypothesisTracker (Q * Q) :=
  {| eval_f := λ h _, (htuple h).1;
     corr_f := λ h _, (((htuple h).1 + 1)%Q, (htuple h).2);
     sim_f := λ a b _, if Qeq_bool (htuple a).1 (htuple b).1 then 1%Q else 0%Q;
     similarity_epsilon := (1 # 2)%Q;
     min_delta := 1%Q;
     max_delta := 2%Q;
     max_hypotheses := k |}.

(** The same configuration, written with the accessor [cur]. *)
Definition sample_config' (k : Z) : TactusHypothesisTracker (Q * Q) :=
  {| eval_f := λ h _, fst (cur h);
     corr_f := λ h _, ((fst (cur h) + 1)%Q, snd (cur h));
     sim_f := λ a b _, if Qeq_bool (cur a).1 (cur b).1 then 1%Q else 0%Q;
     similarity_epsilon := (1 # 2)%Q;
     min_delta := 1%Q;
     max_delta := 2%Q;
     max_hypotheses := k |}.

(** A configuration under which all trackers tie and none is redundant:
    the confidence is always 1, the similarity always 0 and corrections
    keep the hypothesis. *)
Definition flat_config (k : Z) : TactusHypothesisTracker (Q * Q) :=
  {| eval_f := λ _ _, 1%Q;
     corr_f := λ h _, htuple h;
     sim_f := λ _ _ _, 0%Q;
     similarity_epsilon := (1 # 2)%Q;
     min_delta := 1%Q;
     max_delta := 2%Q;
     max_hypotheses := k |}.

Definition sample_onsets : list Q := [0%Q; 1%Q; 2%Q; 3%Q; 4%Q].

(** The cursor of the sample run when its discovered index is [d]. *)
Definition sample_cursor (d : Z) : playback.OngoingPlayback :=
  {| playback.onset_times := sample_onsets; playback.discovered_index := d |}.

(** The first [n] iterations of the loop of [__call__] from the state [s];
    [None] when one of them raises or the cursor is exhausted before. *)
Fixpoint run_steps {Correction : Type} `{!HypothesisCorrection Correction}
    (n : nat) (self : TactusHypothesisTracker Correction)
    (s : playback.OngoingPlayback * list (HypothesisTracker Correction))
  : option (playback.OngoingPlayback * list (HypothesisTracker Correction)) :=
  match n with
  | O => Some s
  | S n' =>
      p' ← playback.advance s.1;
      locals ← call_body self p' s.2;
      run_steps n' self (p', k_best_hs locals)
  end.

(** The state of the sample run on a cursor that starts on the first onset,
    after [n] iterations. *)
Definition sample_state (k : Z) (n : nat)
  : playback.OngoingPlayback * list (HypothesisTracker (Q * Q)) :=
  default (playback.new 0 sample_onsets, [])
    (run_steps n (sample_config k) (playback.new 0 sample_onsets, [])).

(** * Proofs *)

(** ** Python list primitives *)

Lemma py_getitem_nonneg {A} (l : list A) (i : Z) :
  0 ≤ i → py_getitem l i = l !! Z.to_nat i.
Proof.
  intros Hi. unfold py_getitem.
  destruct (Z.leb_spec 0 i) as [_|?]; [|lia].
  destruct (Z.ltb_spec i (Z.of_nat (length l))) as [Hlt|Hge]; simpl; [done|].
  destruct (Z.ltb_spec i 0) as [?|_]; [lia|].
  rewrite andb_false_r. symmetry. apply lookup_ge_None. lia.
Qed.

Lemma py_getitem_is_Some {A} (l : list A) (i : Z) :
  0 ≤ i < Z.of_nat (length l) → is_Some (py_getitem l i).
Proof.
  intros Hi. rewrite py_getitem_nonneg by lia.
  apply lookup_lt_is_Some. lia.
Qed.

Lemma py_getitem_last {A} (l : list A) : py_getitem l (-1) = last l.
Proof.
  unfold py_getitem. simpl.
  destruct l as [|x l] using rev_ind; [done|].
  rewrite length_app, last_snoc. simpl.
  destruct (Z.leb_spec (- Z.of_nat (length l + 1)) (-1)) as [_|?]; [|lia].
  simpl. replace (Z.to_nat (Z.of_nat (length l + 1) + -1)) with (length l) by lia.
  by rewrite lookup_app_r, Nat.sub_diag.
Qed.

Lemma elem_of_xrange (n k : Z) : k ∈ xrange n ↔ 0 ≤ k < n.
Proof.
  unfold xrange. rewrite list_elem_of_fmap. split.
  - intros (i & -> & Hi). apply elem_of_seq in Hi. lia.
  - intros Hk. exists (Z.to_nat k). split; [lia|]. apply elem_of_seq. lia.
Qed.

Lemma xrange_nonpos (n : Z) : n ≤ 0 → xrange n = [].
Proof. intros Hn. unfold xrange. by replace (Z.to_nat n) with 0%nat by lia. Qed.

Lemma xrange_increasing (n : Z) : StronglySorted Z.lt (xrange n).
Proof.
  unfold xrange. generalize 0%nat.
  induction (Z.to_nat n) as [|m IH]; intros s; simpl; constructor; [apply IH|].
  apply Forall_forall. intros k Hk. apply list_elem_of_fmap in Hk as (i & -> & Hi).
  apply elem_of_seq in Hi. lia.
Qed.

Lemma StronglySorted_filter {A} (R : relation A) (P : A → Prop)
    `{!∀ x, Decision (P x)} (l : list A) :
  StronglySorted R l → StronglySorted R (filter P l).
Proof.
  induction 1 as [|x l _ IH Hx]; [constructor|].
  rewrite filter_cons. destruct (decide (P x)); [|done].
  constructor; [done|]. apply Forall_forall.
  intros y [_ Hy]%list_elem_of_filter. by eapply Forall_forall in Hx.
Qed.

Lemma seq_increasing (s n : nat) : StronglySorted lt (seq s n).
Proof.
  revert s. induction n as [|n IH]; intros s; simpl; constructor; [apply IH|].
  apply Forall_forall. intros i Hi%elem_of_seq. lia.
Qed.

Lemma py_slice_to_nonneg {A} (l : list A) (k : Z) :
  0 ≤ k → py_slice_to l k = take (Z.to_nat k) l.
Proof. intros Hk. unfold py_slice_to. by destruct (Z.leb_spec 0 k); [|lia]. Qed.

Lemma enumerate_lookup {A} (l : list A) (i : nat) :
  enumerate l !! i = pair i <$> l !! i.
Proof. unfold enumerate. apply list_lookup_imap. Qed.

Lemma enumerate_fst {A} (l : list A) : (enumerate l).*1 = seq 0 (length l).
Proof.
  apply list_eq. intros i. rewrite list_lookup_fmap, enumerate_lookup.
  destruct (l !! i) as [x|] eqn:Hx; simpl.
  - symmetry. apply lookup_seq. split; [done|]. by eapply lookup_lt_Some.
  - symmetry. apply lookup_seq_ge. by apply lookup_ge_None.
Qed.

Lemma enumerate_snd {A} (l : list A) : (enumerate l).*2 = l.
Proof.
  apply list_eq. intros i. rewrite list_lookup_fmap, enumerate_lookup.
  by destruct (l !! i).
Qed.

Lemma elem_of_enumerate {A} (l : list A) (i : nat) (x : A) :
  (i, x) ∈ enumerate l ↔ l !! i = Some x.
Proof.
  rewrite list_elem_of_lookup. split.
  - intros (j & Hj). rewrite enumerate_lookup in Hj.
    destruct (l !! j) eqn:E; simpl in Hj; [|done]. by inversion Hj; subst.
  - intros Hi. exists i. by rewrite enumerate_lookup, Hi.
Qed.

Lemma length_enumerate {A} (l : list A) : length (enumerate l) = length l.
Proof. unfold enumerate. apply length_imap. Qed.

(** ** The cursor *)

Lemma advance_Some (p p' : playback.OngoingPlayback) :
  playback.advance p = Some p' ↔
  playback.discovered_index p + 1 < Z.of_nat (length (playback.onset_times p)) ∧
  p' = {| playback.onset_times := playback.onset_times p;
          playback.discovered_index := playback.discovered_index p + 1 |}.
Proof.
  unfold playback.advance.
  destruct (Z.ltb_spec (playback.discovered_index p + 1)
              (Z.of_nat (length (playback.onset_times p)))) as [Hlt|Hge].
  - split; [intros Heq; inversion Heq; done | intros [_ ->]; done].
  - split; [intros Heq; inversion Heq | intros [? _]; lia].
Qed.

Lemma advance_None (p : playback.OngoingPlayback) :
  playback.advance p = None ↔
  Z.of_nat (length (playback.onset_times p)) ≤ playback.discovered_index p + 1.
Proof.
  unfold playback.advance.
  destruct (Z.ltb_spec (playback.discovered_index p + 1)
              (Z.of_nat (length (playback.onset_times p)))) as [Hlt|Hge].
  - split; [intros Heq; inversion Heq | lia].
  - split; [lia | done].
Qed.

(** ** Generation *)

Section Generation.

Context {Correction : Type} `{!HypothesisCorrection Correction}.

Local Abbreviation HT := (HypothesisTracker Correction).
Local Abbreviation Config := (TactusHypothesisTracker Correction).

Implicit Types (self : Config) (p : playback.OngoingPlayback).

Lemma HypothesisTracker_init_Some (k e : Z) (onsets : list Q) (h : HT) :
  HypothesisTracker_init k e onsets = Some h →
  name h = (k, e) ∧ fresh onsets h ∧
  ∃ a b, py_getitem onsets e = Some a ∧ py_getitem onsets k = Some b ∧
         beta h = (b, (a - b)%Q).
Proof.
  unfold HypothesisTracker_init, hypothesis.HypothesisFromIndex.
  destruct (py_getitem onsets k) as [b|]; simpl; [|intros Heq; inversion Heq].
  destruct (py_getitem onsets e) as [a|]; simpl; [|intros Heq; inversion Heq].
  intros Heq. inversion Heq; subst; simpl. unfold fresh. simpl. eauto 10.
Qed.

Lemma generate_loop_Some self p (e : Z) (ks : list Z) (l : list HT) :
  generate_loop self p e ks = Some l →
  name <$> l
    = (λ k, (k, e)) <$>
        filter (λ k, delta_in_range self (playback.onset_times p) e k) ks
  ∧ Forall (fresh (playback.onset_times p)) l.
Proof.
  revert l. induction ks as [|k ks IH]; intros l; simpl.
  - intros Heq. inversion Heq. by split.
  - destruct (py_getitem (playback.onset_times p) e) as [a|] eqn:Ha; simpl;
      [|intros Heq; inversion Heq].
    destruct (py_getitem (playback.onset_times p) k) as [b|] eqn:Hb; simpl;
      [|intros Heq; inversion Heq].
    destruct (Qle_bool (min_delta self) (a - b)
              && Qle_bool (a - b) (max_delta self)) eqn:Hc; simpl.
    + destruct (HypothesisTracker_init k e (playback.onset_times p))
        as [h|] eqn:Hh; simpl; [|intros Heq; inversion Heq].
      destruct (generate_loop self p e ks) as [rest|]; simpl;
        [|intros Heq; inversion Heq].
      intros Heq. inversion Heq; subst.
      apply HypothesisTracker_init_Some in Hh as (Hn & Hf & _).
      destruct (IH rest eq_refl) as [IH1 IH2].
      rewrite filter_cons_True
        by (unfold delta_in_range; rewrite Ha, Hb, Hc; done).
      rewrite !fmap_cons, Hn, IH1. split; [done|]. by constructor.
    + rewrite filter_cons_False
        by (unfold delta_in_range; rewrite Ha, Hb, Hc; intros []).
      apply IH.
Qed.

Lemma generate_loop_total self p (e : Z) (ks : list Z) :
  0 ≤ e < Z.of_nat (length (playback.onset_times p)) →
  Forall (λ k, 0 ≤ k < Z.of_nat (length (playback.onset_times p))) ks →
  is_Some (generate_loop self p e ks).
Proof.
  intros He. induction 1 as [|k ks Hk _ IH]; simpl; [by eexists|].
  destruct (py_getitem_is_Some (playback.onset_times p) e He) as [a Ha].
  destruct (py_getitem_is_Some (playback.onset_times p) k Hk) as [b Hb].
  rewrite Ha, Hb. simpl.
  destruct IH as [rest Hrest].
  destruct (Qle_bool (min_delta self) (a - b)
            && Qle_bool (a - b) (max_delta self)); [|by eexists].
  unfold HypothesisTracker_init, hypothesis.HypothesisFromIndex.
  rewrite Ha, Hb, Hrest. simpl. by eexists.
Qed.

(** Generation does not raise when the cursor stands on an onset (or just
    behind the last one). *)
Lemma generate_total self p :
  playback.discovered_index p ≤ Z.of_nat (length (playback.onset_times p)) →
  is_Some (_generate_new_hypothesis self p).
Proof.
  intros Hd. unfold _generate_new_hypothesis.
  destruct (Z.le_gt_cases (playback.discovered_index p - 1) 0) as [Hle|Hgt].
  - rewrite xrange_nonpos by done. by eexists.
  - apply generate_loop_total; [lia|].
    apply Forall_forall. intros k Hk%elem_of_xrange. lia.
Qed.

(** The candidate range is empty when [end_index <= 0]. *)
Lemma generate_nonpos self p :
  playback.discovered_index p - 1 ≤ 0 →
  _generate_new_hypothesis self p = Some [].
Proof.
  intros Hle. unfold _generate_new_hypothesis. by rewrite xrange_nonpos.
Qed.

Lemma delta_in_range_bounds self (onsets : list Q) (e k : Z) :
  delta_in_range self onsets e k ↔
  ∃ a b, py_getitem onsets e = Some a ∧ py_getitem onsets k = Some b ∧
         (min_delta self <= a - b)%Q ∧ (a - b <= max_delta self)%Q.
Proof.
  unfold delta_in_range.
  destruct (py_getitem onsets e) as [a|];
    [|split; [intros [] | intros (? & ? & [=] & _)]].
  destruct (py_getitem onsets k) as [b|];
    [|split; [intros [] | intros (? & ? & _ & [=] & _)]].
  rewrite andb_True, !Is_true_true, !Qle_bool_iff.
  split; [intros [? ?]; eauto 10 | intros (? & ? & ? & ? & ? & ?)].
  by simplify_eq.
Qed.

(** An empty period range selects no start index. *)
Lemma delta_in_range_empty self (onsets : list Q) (e k : Z) :
  (max_delta self < min_delta self)%Q → ¬ delta_in_range self onsets e k.
Proof.
  intros Hlt (a & b & _ & _ & H1 & H2)%delta_in_range_bounds. lra.
Qed.

End Generation.

(** ** Update *)

Section Update.

Context {Correction : Type} `{!HypothesisCorrection Correction}.

Local Abbreviation HT := (HypothesisTracker Correction).

Implicit Types (h : HT) (p : playback.OngoingPlayback).

Lemma update_name h p ev co : name (update h p ev co) = name h.
Proof. done. Qed.

Lemma update_beta h p ev co : beta (update h p ev co) = beta h.
Proof. done. Qed.

Lemma update_corr h p ev co :
  corr (update h p ev co)
    = corr h ++ [(playback.discovered_index p, co h p)].
Proof. done. Qed.

Lemma update_htuple h p ev co :
  htuple (update h p ev co) = new_hypothesis (co h p).
Proof. done. Qed.

Lemma update_confs h p ev co :
  confs (update h p ev co)
    = confs h ++ [(playback.discovered_index p, ev (corrected h p co) p)].
Proof. done. Qed.

Lemma update_conf h p ev co :
  conf (update h p ev co) = Some (ev (corrected h p co) p).
Proof.
  unfold conf. by rewrite py_getitem_last, update_confs, last_snoc.
Qed.

Lemma names_update (l : list HT) p ev co :
  name <$> ((λ h, update h p ev co) <$> l) = name <$> l.
Proof. rewrite <- list_fmap_compose. by apply list_fmap_ext. Qed.

End Update.

(** ** Trimming *)

Section Trimming.

Context {Correction : Type} `{!HypothesisCorrection Correction}.

Local Abbreviation HT := (HypothesisTracker Correction).
Local Abbreviation Config := (TactusHypothesisTracker Correction).

Implicit Types (self : Config) (p : playback.OngoingPlayback).

Lemma exceeds_similar self p (ht n : HT) :
  negb (Qle_bool (sim_f self ht n p) (1 - similarity_epsilon self)) = true
  ↔ similar self p ht n.
Proof.
  unfold similar. rewrite negb_true_iff, <- not_true_iff_false, Qle_bool_iff.
  split; [apply Qnot_le_lt | intros Hlt Hle; exact (Qlt_not_le _ _ Hlt Hle)].
Qed.

(** The inner loop splits the candidates by similarity with [ht]. *)
Lemma trim_compare_spec self p (ht : HT) (r acc : list HT) (t : list (HT * HT)) :
  trim_compare self p ht r acc t
    = (acc ++ filter (λ n, ¬ similar self p ht n) r,
       t ++ ((λ n, (n, ht)) <$> filter (similar self p ht) r)).
Proof.
  revert acc t. induction r as [|n r IH]; intros acc t; simpl.
  - by rewrite !app_nil_r.
  - destruct (negb _) eqn:Hs.
    + apply exceeds_similar in Hs.
      rewrite IH, filter_cons_False, filter_cons_True by tauto.
      by rewrite fmap_cons, <- app_assoc.
    + assert (¬ similar self p ht n) as Hn
        by (rewrite <- exceeds_similar, Hs; discriminate).
      rewrite IH, filter_cons_True, filter_cons_False by done.
      by rewrite <- app_assoc.
Qed.

(** The outer loop appends a greedy partition of the remaining trackers to
    its accumulators. *)
Lemma trim_loop_spec self p (r kept : list HT) (trimmed : list (HT * HT)) :
  ∃ K T, trim_loop self p r kept trimmed = (kept ++ K, trimmed ++ T)
         ∧ greedy_partition self p r K T.
Proof.
  remember (length r) as m eqn:Hm.
  revert r kept trimmed Hm.
  induction m as [m IH] using lt_wf_ind. intros [|ht r] kept trimmed Hm.
  - simp trim_loop. exists [], []. rewrite !app_nil_r. split; [done|constructor].
  - simp trim_loop. rewrite trim_compare_spec. simpl.
    edestruct (IH (length (filter (λ n, ¬ similar self p ht n) r)))
      as (K & T & Heq & HG); [| reflexivity |].
    { subst m. simpl. pose proof (length_filter (λ n, ¬ similar self p ht n) r).
      lia. }
    rewrite Heq.
    exists (ht :: K), (((λ n, (n, ht)) <$> filter (similar self p ht) r) ++ T).
    split; [by rewrite <- !app_assoc | by constructor].
Qed.

Lemma trim_greedy self p (l : list HT) :
  greedy_partition self p l (_trim_similar_hypotheses self l p).1
    (_trim_similar_hypotheses self l p).2.
Proof.
  unfold _trim_similar_hypotheses.
  destruct (trim_loop_spec self p l [] []) as (K & T & -> & HG). done.
Qed.

Lemma greedy_sublist self p (l K : list HT) T :
  greedy_partition self p l K T → sublist K l.
Proof.
  induction 1 as [|ht rest kept trimmed _ IH]; [constructor|].
  apply sublist_skip. etrans; [exact IH|]. apply sublist_filter.
Qed.

Lemma greedy_permutation self p (l K : list HT) T :
  greedy_partition self p l K T → K ++ T.*1 ≡ₚ l.
Proof.
  induction 1 as [|ht rest kept trimmed _ IH]; [done|].
  simpl. f_equiv. rewrite fmap_app, <- list_fmap_compose.
  rewrite (list_fmap_ext _ id (filter (similar self p ht) rest)) by done.
  rewrite list_fmap_id, Permutation_app_comm, <- app_assoc.
  rewrite (Permutation_app_comm _ kept), IH.
  apply filter_app_complement.
Qed.

Lemma greedy_pairwise self p (l K : list HT) T :
  greedy_partition self p l K T →
  ForallOrdPairs
    (λ a b, (sim_f self a b p <= 1 - similarity_epsilon self)%Q) K.
Proof.
  induction 1 as [|ht rest kept trimmed HG IH]; constructor; [|done].
  apply Forall_forall. intros b Hb.
  apply greedy_sublist, sublist_subseteq in HG. apply HG in Hb.
  apply list_elem_of_filter in Hb as [Hn _]. unfold similar in Hn.
  by apply Qnot_lt_le.
Qed.

Lemma greedy_trimmed self p (l K : list HT) T :
  greedy_partition self p l K T →
  Forall (λ t, t.2 ∈ K ∧ similar self p t.2 t.1) T.
Proof.
  induction 1 as [|ht rest kept trimmed HG IH]; [constructor|].
  apply Forall_app. split.
  - apply Forall_fmap, Forall_forall. intros n Hn%list_elem_of_filter. simpl.
    split; [left | tauto].
  - eapply Forall_impl; [exact IH|]. intros t [? ?]. split; [by right|done].
Qed.

End Trimming.

(** ** Selection *)

Section Ranking.

Implicit Types (x y : nat * Q) (l : list (nat * Q)).

Lemma rank_insert_Permutation x l : rank_insert x l ≡ₚ x :: l.
Proof.
  induction l as [|y l IH]; simpl; [done|].
  destruct (negb _); [|done]. rewrite IH. apply perm_swap.
Qed.

Lemma rank_Permutation l : rank_by_confidence l ≡ₚ l.
Proof.
  induction l as [|x l IH]; simpl; [done|].
  by rewrite rank_insert_Permutation, IH.
Qed.

Lemma rank_insert_sorted x l :
  StronglySorted (λ a b, (b.2 <= a.2)%Q) l →
  StronglySorted (λ a b, (b.2 <= a.2)%Q) (rank_insert x l).
Proof.
  induction 1 as [|y l Hs IH Hy]; simpl; [repeat constructor|].
  destruct (negb (Qle_bool y.2 x.2)) eqn:Hc.
  - constructor; [done|]. rewrite rank_insert_Permutation.
    constructor; [|done].
    apply negb_true_iff in Hc. apply Qlt_le_weak, Qnot_le_lt.
    rewrite <- Qle_bool_iff, Hc. discriminate.
  - apply negb_false_iff, Qle_bool_iff in Hc.
    constructor; [by constructor|]. constructor; [done|].
    eapply Forall_impl; [exact Hy|]. intros z Hz. simpl in *.
    exact (Qle_trans _ _ _ Hz Hc).
Qed.

(** The ranking is in descending order of confidence. *)
Lemma rank_sorted l :
  StronglySorted (λ a b, (b.2 <= a.2)%Q) (rank_by_confidence l).
Proof.
  induction l as [|x l IH]; simpl; [constructor|]. by apply rank_insert_sorted.
Qed.

(** The tuples order a tracker after the trackers of greater confidence
    and, at equal confidence, after those of smaller position. *)
Lemma tuple_lt_info_of x y :
  (x.1 < y.1)%nat →
  tuple_lt (info_of y) (info_of x) = negb (Qle_bool y.2 x.2).
Proof.
  intros Hlt. unfold tuple_lt, info_of. simpl.
  destruct (Qeq_bool (-1 * y.2) (-1 * x.2)) eqn:He.
  - apply Qeq_bool_iff in He.
    replace (y.1 <? x.1)%nat with false
      by (symmetry; apply Nat.ltb_ge; lia).
    symmetry. apply negb_false_iff, Qle_bool_iff. lra.
  - f_equal. apply eq_true_iff_eq. rewrite !Qle_bool_iff. split; intros; lra.
Qed.

Lemma sorted_insert_info_of x l :
  Forall (λ y, (x.1 < y.1)%nat) l →
  sorted_insert (info_of x) (info_of <$> l) = info_of <$> rank_insert x l.
Proof.
  induction 1 as [|y l Hy _ IH]; [done|].
  rewrite fmap_cons. cbn [sorted_insert rank_insert].
  rewrite tuple_lt_info_of by done.
  destruct (negb _); [by rewrite fmap_cons, IH | by rewrite !fmap_cons].
Qed.

(** Sorting the tuples is the stable ranking by descending confidence,
    when the positions are listed in increasing order. *)
Lemma sorted_info_of l :
  StronglySorted lt l.*1 →
  sorted (info_of <$> l) = info_of <$> rank_by_confidence l.
Proof.
  induction l as [|x l IH]; [done|].
  rewrite !fmap_cons. cbn [sorted rank_by_confidence].
  intros [Hs Hx]%StronglySorted_inv. rewrite IH by done.
  apply sorted_insert_info_of. rewrite rank_Permutation.
  rewrite Forall_fmap in Hx. exact Hx.
Qed.

Lemma py_slice_to_fmap {A B} (f : A → B) (l : list A) (k : Z) :
  py_slice_to (f <$> l) k = f <$> py_slice_to l k.
Proof.
  unfold py_slice_to. rewrite length_fmap.
  destruct (0 <=? k); by rewrite fmap_take.
Qed.

Lemma rank_insert_order x l :
  Forall (λ y, (x.1 < y.1)%nat) l →
  StronglySorted ranked_before l →
  StronglySorted ranked_before (rank_insert x l).
Proof.
  intros Hpos. induction 1 as [|y l Hs IH Hy]; simpl; [repeat constructor|].
  apply Forall_cons in Hpos as [Hxy Hpos].
  destruct (negb (Qle_bool y.2 x.2)) eqn:Hc.
  - constructor; [by apply IH|]. rewrite rank_insert_Permutation.
    constructor; [|done]. left.
    apply negb_true_iff in Hc. apply Qnot_le_lt.
    rewrite <- Qle_bool_iff, Hc. discriminate.
  - apply negb_false_iff, Qle_bool_iff in Hc.
    assert (∀ z, (z.2 <= x.2)%Q → (x.1 < z.1)%nat → ranked_before x z) as Hle.
    { intros z Hz Hlt. destruct (Qle_lt_or_eq _ _ Hz); [by left | by right]. }
    constructor; [by constructor|]. constructor; [by apply Hle|].
    apply Forall_forall. intros z Hz.
    apply Hle; [|by eapply Forall_forall in Hpos].
    eapply Forall_forall in Hy; [|exact Hz].
    destruct Hy as [Hlt|[Heq _]]; [|rewrite Heq; exact Hc].
    apply Qlt_le_weak. exact (Qlt_le_trans _ _ _ Hlt Hc).
Qed.

(** The ranking of entries listed by increasing position is in descending
    order of confidence, and in order of position among equal confidences. *)
Lemma rank_order l :
  StronglySorted lt l.*1 → StronglySorted ranked_before (rank_by_confidence l).
Proof.
  induction l as [|x l IH]; [constructor|].
  rewrite fmap_cons. cbn [rank_by_confidence].
  intros [Hs Hx]%StronglySorted_inv.
  apply rank_insert_order; [|by apply IH].
  rewrite rank_Permutation. rewrite Forall_fmap in Hx. exact Hx.
Qed.

Lemma tuple_lt_ranked_before x y :
  tuple_lt (info_of x) (info_of y) = true ↔ ranked_before x y.
Proof.
  unfold tuple_lt, info_of, ranked_before. simpl.
  destruct (Qeq_bool (-1 * x.2) (-1 * y.2)) eqn:He.
  - apply Qeq_bool_iff in He. rewrite Nat.ltb_lt. split.
    + intros Hlt. right. split; [lra | done].
    + intros [Hlt|[_ Hlt]]; [lra | done].
  - apply Qeq_bool_neq in He.
    rewrite negb_true_iff, <- not_true_iff_false, Qle_bool_iff. split.
    + intros Hn. left. apply Qnot_le_lt in Hn. lra.
    + intros [Hlt|[Heq _]] Hle; [lra | apply He; lra].
Qed.

(** The list of tuples of the selection has one list in ascending order,
    [sorted] of it: the result does not depend on the sorting algorithm. *)
Lemma sorted_unique (cs : list Q) (l' : list (Q * nat)) :
  l' ≡ₚ info_of <$> enumerate cs →
  StronglySorted (λ a b, tuple_lt b a = false) l' →
  l' = sorted (info_of <$> enumerate cs).
Proof.
  intros Hperm Hsorted.
  assert (StronglySorted lt (enumerate cs).*1) as Hinc
    by (rewrite enumerate_fst; apply seq_increasing).
  rewrite sorted_info_of by done.
  assert (∀ x y, ranked_before x y → tuple_lt (info_of y) (info_of x) = false)
    as Hasym.
  { intros x y Hxy. apply not_true_iff_false.
    intros Hyx%tuple_lt_ranked_before. unfold ranked_before in *.
    destruct Hxy as [?|[? ?]], Hyx as [?|[? ?]]; try lra; lia. }
  apply (StronglySorted_unique_strong (λ a b, tuple_lt b a = false));
    [|done| |].
  - intros a b Ha Hb Hab Hba.
    rewrite Hperm in Ha.
    apply list_elem_of_fmap in Ha as ([i c] & -> & Hi%elem_of_enumerate).
    apply list_elem_of_fmap in Hb as ([j d] & -> & Hj).
    rewrite rank_Permutation in Hj. apply elem_of_enumerate in Hj.
    destruct (decide (i = j)) as [->|Hne]; [congruence|]. exfalso.
    assert (ranked_before (i, c) (j, d) ∨ ranked_before (j, d) (i, c)) as Htot.
    { unfold ranked_before. simpl.
      destruct (Q_dec c d) as [[?|?]|?]; [by right; left | by left; left |].
      destruct (Nat.lt_total i j) as [?|[?|?]]; [|done|].
      - left. right. split; [by symmetry | done].
      - right. right. split; done. }
    destruct Htot as [H1%tuple_lt_ranked_before|H1%tuple_lt_ranked_before];
      congruence.
  - apply (StronglySorted_fmap _ ranked_before); [exact Hasym|].
    by apply rank_order.
  - by rewrite Hperm, rank_Permutation.
Qed.


End Ranking.

Section Selection.

Context {Correction : Type} `{!HypothesisCorrection Correction}.

Local Abbreviation HT := (HypothesisTracker Correction).
Local Abbreviation Config := (TactusHypothesisTracker Correction).

Implicit Types (self : Config) (hts best other : list HT) (cs : list Q).

Lemma filter_positions_fst {A} (P : nat → Prop) `{!∀ i, Decision (P i)}
    (l : list (nat * A)) :
  (filter (λ p, P p.1) l).*1 = filter P l.*1.
Proof.
  induction l as [|[i x] l IH]; [done|].
  rewrite fmap_cons, !filter_cons. simpl.
  destruct (decide (P i)); [rewrite fmap_cons|]; by rewrite IH.
Qed.

Lemma elem_of_filter_enumerate {A} (P : nat * A → Prop)
    `{!∀ x, Decision (P x)} (l : list A) (x : A) :
  x ∈ (filter P (enumerate l)).*2 ↔ ∃ i, l !! i = Some x ∧ P (i, x).
Proof.
  rewrite list_elem_of_fmap. split.
  - intros ([i y] & -> & [HP Hin%elem_of_enumerate]%list_elem_of_filter). eauto.
  - intros (i & Hi & HP). exists (i, x). split; [done|].
    apply list_elem_of_filter. split; [done|]. by apply elem_of_enumerate.
Qed.

Lemma sublist_filter_enumerate {A} (P : nat * A → Prop)
    `{!∀ x, Decision (P x)} (l : list A) :
  sublist (filter P (enumerate l)).*2 l.
Proof.
  rewrite <- (enumerate_snd l) at 2. apply fmap_sublist, sublist_filter.
Qed.

(** The tuples the code sorts, from the latest confidences. *)
Lemma hts_info_spec hts (info : list (Q * nat)) :
  mapM (λ p : nat * HT, c ← conf p.2; Some ((-1 * c)%Q, p.1)) (enumerate hts)
    = Some info →
  ∃ cs, Forall2 (λ h c, conf h = Some c) hts cs
        ∧ info = info_of <$> enumerate cs.
Proof.
  intros Hm%mapM_Some.
  assert (is_Some (mapM conf hts)) as [cs Hcs].
  { apply mapM_is_Some, Forall_forall. intros h (i & Hi)%list_elem_of_lookup.
    destruct (Forall2_lookup_l _ _ _ i (i, h) Hm) as (y & _ & Hy).
    { by rewrite enumerate_lookup, Hi. }
    simpl in *. destruct (conf h); [by eexists | done]. }
  apply mapM_Some in Hcs. exists cs. split; [done|].
  apply list_eq. intros i. rewrite list_lookup_fmap, enumerate_lookup.
  destruct (hts !! i) as [h|] eqn:Hi.
  - destruct (Forall2_lookup_l _ _ _ i h Hcs Hi) as (c & -> & Hc).
    destruct (Forall2_lookup_l _ _ _ i (i, h) Hm) as (y & -> & Hy).
    { by rewrite enumerate_lookup, Hi. }
    simpl in *. rewrite Hc in Hy. simpl in Hy. by inversion Hy.
  - apply lookup_ge_None in Hi.
    rewrite (proj2 (lookup_ge_None cs i))
      by (by rewrite <- (Forall2_length _ _ _ Hcs)).
    apply lookup_ge_None.
    by rewrite <- (Forall2_length _ _ _ Hm), length_enumerate.
Qed.

(** Selection keeps the trackers at the chosen positions and drops the
    others, both in population order. *)
Lemma split_k_best_spec self hts best other :
  0 ≤ max_hypotheses self →
  _split_k_best_hypotheses self hts = Some (best, other) →
  ∃ cs, Forall2 (λ h c, conf h = Some c) hts cs
        ∧ best = (filter (λ p, p.1 ∈ chosen self cs) (enumerate hts)).*2
        ∧ other = (filter (λ p, p.1 ∉ chosen self cs) (enumerate hts)).*2.
Proof.
  intros Hk. unfold _split_k_best_hypotheses.
  destruct (mapM _ (enumerate hts)) as [info|] eqn:Hinfo; simpl;
    [|intros Heq; inversion Heq].
  intros Heq. inversion Heq; subst best other. clear Heq.
  apply hts_info_spec in Hinfo as (cs & Hcs & ->).
  exists cs. split; [done|].
  rewrite sorted_info_of
    by (rewrite enumerate_fst; apply seq_increasing).
  rewrite py_slice_to_fmap, <- list_fmap_compose.
  assert (∀ i : nat,
    i ∈ (list_to_set
           (snd ∘ info_of <$>
              py_slice_to (rank_by_confidence (enumerate cs))
                (max_hypotheses self)) : gset nat)
    ↔ i ∈ chosen self cs) as Hiff.
  { intros i. by rewrite elem_of_list_to_set, py_slice_to_nonneg. }
  split; f_equal; apply list_filter_iff; intros [i h]; simpl;
    [apply Hiff | by rewrite Hiff].
Qed.

(** Selection does not raise once every tracker has a confidence. *)
Lemma split_k_best_total self hts :
  Forall (λ h, confs h ≠ []) hts →
  is_Some (_split_k_best_hypotheses self hts).
Proof.
  intros Hne. unfold _split_k_best_hypotheses.
  assert (is_Some (mapM (λ p : nat * HT, c ← conf p.2; Some ((-1 * c)%Q, p.1))
                     (enumerate hts))) as [info ->]; [|by eexists].
  apply mapM_is_Some, Forall_forall.
  intros [i h] Hin%elem_of_enumerate. simpl.
  assert (confs h ≠ []) as Hh.
  { eapply Forall_forall in Hne; [exact Hne|]. by eapply list_elem_of_lookup_2. }
  unfold conf. rewrite py_getitem_last.
  destruct (confs h) as [|c l] using rev_ind; [done|].
  rewrite last_snoc. simpl. by eexists.
Qed.

Lemma chosen_positions self cs :
  0 ≤ max_hypotheses self →
  NoDup (chosen self cs)
  ∧ length (chosen self cs)
      = (Z.to_nat (max_hypotheses self) `min` length cs)%nat
  ∧ ∀ i, i ∈ chosen self cs → (i < length cs)%nat.
Proof.
  intros Hk. unfold chosen.
  assert ((rank_by_confidence (enumerate cs)).*1 ≡ₚ seq 0 (length cs)) as Hp.
  { by rewrite rank_Permutation, enumerate_fst. }
  rewrite fmap_take. split; [|split].
  - eapply sublist_NoDup; [|apply sublist_take]. rewrite Hp. apply NoDup_seq.
  - by rewrite length_take, Hp, length_seq.
  - intros i Hi. apply (sublist_subseteq _ _ (sublist_take _ _)) in Hi.
    rewrite Hp in Hi. apply elem_of_seq in Hi. lia.
Qed.

End Selection.

Section SelectionFacts.

Context {Correction : Type} `{!HypothesisCorrection Correction}.

Local Abbreviation HT := (HypothesisTracker Correction).
Local Abbreviation Config := (TactusHypothesisTracker Correction).

Implicit Types (self : Config) (hts best other : list HT) (cs : list Q).

Lemma split_k_best_length self hts best other :
  0 ≤ max_hypotheses self →
  _split_k_best_hypotheses self hts = Some (best, other) →
  length best = (Z.to_nat (max_hypotheses self) `min` length hts)%nat.
Proof.
  intros Hk (cs & Hcs & -> & _)%split_k_best_spec; [|done].
  destruct (chosen_positions self cs Hk) as (Hnd & Hlen & Hlt).
  rewrite length_fmap, <- (length_fmap fst).
  pose proof (filter_positions_fst (λ i, i ∈ chosen self cs) (enumerate hts))
    as ->.
  rewrite enumerate_fst.
  rewrite (Forall2_length _ _ _ Hcs), <- Hlen.
  apply Permutation_length, NoDup_Permutation;
    [apply NoDup_filter, NoDup_seq | done |].
  intros i. rewrite list_elem_of_filter, elem_of_seq.
  split; [tauto|]. intros Hi. specialize (Hlt i Hi). split; [done|lia].
Qed.

Lemma split_k_best_sublist self hts best other :
  _split_k_best_hypotheses self hts = Some (best, other) →
  sublist best hts ∧ sublist other hts ∧ best ++ other ≡ₚ hts.
Proof.
  unfold _split_k_best_hypotheses.
  destruct (mapM _ (enumerate hts)) as [info|]; simpl;
    [|intros Heq; inversion Heq].
  intros Heq. inversion Heq; subst best other. clear Heq.
  split; [|split].
  - apply sublist_filter_enumerate.
  - apply sublist_filter_enumerate.
  - rewrite <- fmap_app, filter_app_complement. by rewrite enumerate_snd.
Qed.

(** A retained tracker is not less believable than a dropped one. *)
Lemma split_k_best_order self hts best other (r d : HT) (cr cd : Q) :
  0 ≤ max_hypotheses self →
  _split_k_best_hypotheses self hts = Some (best, other) →
  r ∈ best → d ∈ other → conf r = Some cr → conf d = Some cd →
  (cd <= cr)%Q.
Proof.
  intros Hk (cs & Hcs & -> & ->)%split_k_best_spec; [|done].
  intros (i & Hi & Hin)%elem_of_filter_enumerate
         (j & Hj & Hout)%elem_of_filter_enumerate Hr Hd.
  simpl in Hin, Hout.
  destruct (Forall2_lookup_l _ _ _ i r Hcs Hi) as (cr' & Hci & Hcr).
  destruct (Forall2_lookup_l _ _ _ j d Hcs Hj) as (cd' & Hcj & Hcd).
  assert (cr' = cr) as -> by congruence.
  assert (cd' = cd) as -> by congruence.
  unfold chosen in Hin, Hout.
  set (R := rank_by_confidence (enumerate cs)) in *.
  set (k := Z.to_nat (max_hypotheses self)) in *.
  assert (∀ n c, (n, c) ∈ R ↔ cs !! n = Some c) as HR.
  { intros n c. unfold R.
    by rewrite rank_Permutation, elem_of_enumerate. }
  apply list_elem_of_fmap in Hin as ([i' c] & Heq & Hin). simpl in Heq. subst i'.
  assert (c = cr) as ->.
  { apply (sublist_subseteq _ _ (sublist_take _ _)), HR in Hin. congruence. }
  assert ((j, cd) ∈ drop k R) as Hdrop.
  { apply HR in Hcj. rewrite <- (take_drop k R) in Hcj.
    apply elem_of_app in Hcj as [Htake|Hdrop]; [|done].
    exfalso. apply Hout, list_elem_of_fmap. by exists (j, cd). }
  pose proof (rank_sorted (enumerate cs)) as Hs. fold R in Hs.
  rewrite <- (take_drop k R) in Hs.
  exact (StronglySorted_app_1_elem_of _ _ _ _ _ Hs Hin Hdrop).
Qed.

Lemma split_k_best_zero self hts best other :
  max_hypotheses self = 0 →
  _split_k_best_hypotheses self hts = Some (best, other) → best = [].
Proof.
  intros Hk Hs. apply split_k_best_length in Hs; [|lia].
  rewrite Hk in Hs. simpl in Hs. by destruct best.
Qed.

End SelectionFacts.

(** ** The returned mapping *)

Section Dict.

Context `{Countable K} {V : Type}.

Implicit Types (l : list (K * V)) (k : K) (v : V).

Lemma py_dict_snoc l k v : py_dict (l ++ [(k, v)]) = <[k:=v]> (py_dict l).
Proof. unfold py_dict. by rewrite foldl_app. Qed.

Lemma py_dict_lookup_None l k : py_dict l !! k = None ↔ k ∉ l.*1.
Proof.
  induction l as [|[k' v'] l IH] using rev_ind.
  - split; [intros _ Hin; inversion Hin | done].
  - rewrite py_dict_snoc, fmap_app, not_elem_of_app, lookup_insert_None, IH.
    simpl. rewrite list_elem_of_singleton. split; intros [? ?]; split; congruence.
Qed.

Lemma py_dict_lookup_Some l k v :
  NoDup l.*1 → py_dict l !! k = Some v ↔ (k, v) ∈ l.
Proof.
  induction l as [|[k' v'] l IH] using rev_ind; intros Hnd.
  - split; [done | intros Hin; inversion Hin].
  - rewrite fmap_app in Hnd. apply NoDup_app in Hnd as (Hnd & Hfresh & _).
    rewrite py_dict_snoc, lookup_insert_Some, IH, elem_of_app by done.
    rewrite list_elem_of_singleton. split.
    + intros [[-> ->]|[Hne Hin]]; [by right | by left].
    + intros [Hin|Heq].
      * right. split; [|done]. intros ->.
        apply (Hfresh k); [|simpl; left].
        apply list_elem_of_fmap. by exists (k, v).
      * inversion Heq. by left.
Qed.

End Dict.

(** ** One iteration *)

Section Body.

Context {Correction : Type} `{!HypothesisCorrection Correction}.

Local Abbreviation HT := (HypothesisTracker Correction).
Local Abbreviation Config := (TactusHypothesisTracker Correction).

Implicit Types (self : Config) (p : playback.OngoingPlayback)
  (hts : list HT) (h : HT).

(** The local variables of an iteration, phase by phase. *)
Lemma call_body_inv self p hts (L : Locals Correction) :
  call_body self p hts = Some L →
  _generate_new_hypothesis self p = Some (n_hts L)
  ∧ hypothesis_trackers L
      = (λ h, update h p (eval_f self) (corr_f self)) <$> (hts ++ n_hts L)
  ∧ _trim_similar_hypotheses self (hypothesis_trackers L) p
      = (kept_hs L, trimmed_hs L)
  ∧ _split_k_best_hypotheses self (kept_hs L)
      = Some (k_best_hs L, other_hs L).
Proof.
  unfold call_body.
  destruct (_generate_new_hypothesis self p) as [n|]; simpl;
    [|intros Heq; inversion Heq].
  destruct (_trim_similar_hypotheses self _ p) as [kept trimmed] eqn:Ht.
  destruct (_split_k_best_hypotheses self kept) as [[best other]|] eqn:Hs;
    simpl; [|intros Heq; inversion Heq].
  intros Heq. inversion Heq; subst L; simpl. by rewrite Ht.
Qed.

Lemma updated_has_confidence self p (l : list HT) :
  Forall (λ h, confs h ≠ [])
    ((λ h, update h p (eval_f self) (corr_f self)) <$> l).
Proof.
  apply Forall_fmap, Forall_forall. intros h _.
  change (confs (update h p (eval_f self) (corr_f self)) ≠ []).
  rewrite update_confs. by destruct (confs h).
Qed.

(** An iteration does not raise when the cursor stands on an onset. *)
Lemma call_body_total self p hts :
  playback.discovered_index p ≤ Z.of_nat (length (playback.onset_times p)) →
  is_Some (call_body self p hts).
Proof.
  intros Hd. unfold call_body.
  destruct (generate_total self p Hd) as [n ->]. simpl.
  destruct (_trim_similar_hypotheses self _ p) as [kept trimmed] eqn:Ht.
  destruct (split_k_best_total self kept) as [[best other] ->]; [|by eexists].
  pose proof (trim_greedy self p
    ((λ h, update h p (eval_f self) (corr_f self)) <$> (hts ++ n))) as HG.
  rewrite Ht in HG. apply greedy_sublist, sublist_subseteq in HG.
  apply Forall_forall. intros h Hh%HG. revert h Hh. apply Forall_forall.
  apply updated_has_confidence.
Qed.

Lemma call_body_sublists self p hts (L : Locals Correction) :
  call_body self p hts = Some L →
  sublist (kept_hs L) (hypothesis_trackers L)
  ∧ sublist (k_best_hs L) (kept_hs L)
  ∧ sublist (other_hs L) (kept_hs L)
  ∧ Forall (λ t, t.1 ∈ hypothesis_trackers L ∧ t.2 ∈ kept_hs L) (trimmed_hs L).
Proof.
  intros (_ & _ & Ht & Hs)%call_body_inv.
  pose proof (trim_greedy self p (hypothesis_trackers L)) as HG. rewrite Ht in HG.
  simpl in HG. apply split_k_best_sublist in Hs as (Hb & Ho & _).
  split; [by eapply greedy_sublist|]. split; [done|]. split; [done|].
  pose proof (greedy_permutation _ _ _ _ _ HG) as Hp.
  pose proof (greedy_trimmed _ _ _ _ _ HG) as Hf.
  apply Forall_forall. intros t Ht'. split.
  - rewrite <- Hp. apply elem_of_app. right. apply list_elem_of_fmap. eauto.
  - eapply Forall_forall in Hf; [|exact Ht']. tauto.
Qed.

End Body.

(** ** Invariants of the population *)

Section Invariants.

Context {Correction : Type} `{!HypothesisCorrection Correction}.

Local Abbreviation HT := (HypothesisTracker Correction).
Local Abbreviation Config := (TactusHypothesisTracker Correction).

Implicit Types (self : Config) (p : playback.OngoingPlayback)
  (hts : list HT) (h : HT) (d : Z).

Lemma fresh_tracker_invariant (onsets : list Q) h d :
  fresh onsets h → tracker_invariant h ∧ history_bound d h.
Proof.
  intros (Hc & Hf & Hb & _). split.
  - split; rewrite ?Hc, ?Hf; try constructor. exact Hb.
  - split; rewrite ?Hc, ?Hf; [done | constructor].
Qed.

Lemma update_tracker_invariant h p d ev co :
  tracker_invariant h → history_bound d h → d < playback.discovered_index p →
  tracker_invariant (update h p ev co)
  ∧ history_bound (playback.discovered_index p) (update h p ev co).
Proof.
  intros [Hlen Hcorr Hconfs Hcur] [Heq Hle] Hd.
  assert (StronglySorted Z.lt
            ((corr h).*1 ++ [playback.discovered_index p])) as Hs.
  { apply StronglySorted_app_2; [|done|repeat constructor].
    intros i j Hi ->%list_elem_of_singleton.
    eapply Forall_forall in Hle; [|exact Hi]. simpl in Hle. lia. }
  split; [split|split].
  - rewrite update_corr, update_confs, !length_app. simpl. by rewrite Hlen.
  - by rewrite update_corr, fmap_app.
  - rewrite update_confs, fmap_app, <- Heq. done.
  - unfold cur. by rewrite update_htuple, update_corr, last_snoc.
  - rewrite update_corr, update_confs, !fmap_app. by rewrite Heq.
  - rewrite update_corr, fmap_app. apply Forall_app. split.
    + eapply Forall_impl; [exact Hle|]. intros i Hi. simpl in *. lia.
    + repeat constructor. simpl. lia.
Qed.

Lemma history_bound_mono h d d' : d ≤ d' → history_bound d h → history_bound d' h.
Proof.
  intros Hd [Heq Hle]. split; [done|].
  eapply Forall_impl; [exact Hle|]. intros i Hi. simpl in *. lia.
Qed.

Lemma name_below_mono h d d' : d ≤ d' → name_below d h → name_below d' h.
Proof. unfold name_below. intros ? [? ?]. split; [done | lia]. Qed.

(** The names of the trackers generated at a step. *)
Lemma generate_names self p (n : list HT) :
  _generate_new_hypothesis self p = Some n →
  Forall (λ h, (name h).2 = playback.discovered_index p - 1
               ∧ 0 ≤ (name h).1 < (name h).2) n
  ∧ NoDup (name <$> n)
  ∧ Forall (fresh (playback.onset_times p)) n.
Proof.
  intros [Hn Hf]%generate_loop_Some. split; [|split; [|done]].
  - assert (Forall (λ nm : Z * Z,
              nm.2 = playback.discovered_index p - 1 ∧ 0 ≤ nm.1 < nm.2)
            (name <$> n)) as HF.
    { rewrite Hn. apply Forall_fmap, Forall_forall.
      intros k [_ Hk%elem_of_xrange]%list_elem_of_filter. simpl. lia. }
    rewrite Forall_fmap in HF. exact HF.
  - rewrite Hn. apply NoDup_fmap_2_strong.
    + intros k k' _ _ Heq. by inversion Heq.
    + apply NoDup_filter. unfold xrange. apply NoDup_fmap_2; [|apply NoDup_seq].
      intros i j. lia.
Qed.

Lemma population_invariant_sublist p (l l' : list HT) :
  sublist l' l → population_invariant p l → population_invariant p l'.
Proof.
  intros Hs [H1 H2 H3 H4].
  pose proof (sublist_subseteq _ _ Hs) as Hsub.
  split.
  - apply Forall_forall. intros h Hh%Hsub. revert h Hh. by apply Forall_forall.
  - apply Forall_forall. intros h Hh%Hsub. revert h Hh. by apply Forall_forall.
  - apply Forall_forall. intros h Hh%Hsub. revert h Hh. by apply Forall_forall.
  - eapply sublist_NoDup; [exact H4|]. by apply fmap_sublist.
Qed.

(** The population between [extend] and the updates, and the population
    after the updates. *)
Lemma population_step self p p' hts (L : Locals Correction) :
  population_invariant p hts →
  playback.advance p = Some p' →
  call_body self p' hts = Some L →
  Forall tracker_invariant (hts ++ n_hts L)
  ∧ population_invariant p' (hypothesis_trackers L).
Proof.
  intros [H1 H2 H3 H4] [Hlt ->]%advance_Some Hb.
  destruct (call_body_inv _ _ _ _ Hb) as (Hg & Hu & _). simpl in *.
  set (d := playback.discovered_index p) in *.
  apply generate_names in Hg as (Hnames & Hnd & Hfresh). simpl in Hnames.
  assert (Forall (λ h, tracker_invariant h ∧ history_bound d h)
            (hts ++ n_hts L)) as Hall.
  { apply Forall_app. split.
    - apply Forall_forall. intros h Hh. split.
      + by eapply Forall_forall in H1.
      + by eapply Forall_forall in H2.
    - eapply Forall_impl; [exact Hfresh|]. intros h Hh.
      by eapply fresh_tracker_invariant. }
  split.
  { eapply Forall_impl; [exact Hall|]. by intros h [? _]. }
  set (p' := {| playback.onset_times := playback.onset_times p;
                playback.discovered_index := d + 1 |}) in *.
  assert (Forall (λ h, tracker_invariant h
                       ∧ history_bound (playback.discovered_index p') h)
            (hypothesis_trackers L)) as Hupd.
  { rewrite Hu. apply Forall_fmap. eapply Forall_impl; [exact Hall|].
    intros h [Hi Hh].
    apply (update_tracker_invariant h p' d); [done..|simpl; lia]. }
  split.
  - eapply Forall_impl; [exact Hupd|]. by intros h [? _].
  - eapply Forall_impl; [exact Hupd|]. by intros h [_ ?].
  - rewrite Hu. apply Forall_fmap, Forall_app. split.
    + eapply Forall_impl; [exact H3|]. intros h Hh.
      apply (name_below_mono _ d); [subst p'; simpl; lia | exact Hh].
    + eapply Forall_impl; [exact Hnames|]. intros h [He Hk].
      split; [exact Hk|]. change ((name h).2 < d + 1). lia.
  - rewrite Hu, names_update, fmap_app. apply NoDup_app. split; [done|].
    split; [|done]. intros nm Hold Hnew.
    apply list_elem_of_fmap in Hold as (h & -> & Hh).
    apply list_elem_of_fmap in Hnew as (h' & Heq & Hh').
    eapply Forall_forall in H3; [|exact Hh].
    eapply Forall_forall in Hnames; [|exact Hh'].
    destruct H3 as [_ Hlt']. destruct Hnames as [He _].
    rewrite Heq, He in Hlt'. fold d in Hlt'. lia.
Qed.

Lemma engine_step_invariant self (s s' : playback.OngoingPlayback * list HT) :
  engine_step self s s' →
  population_invariant s.1 s.2 → population_invariant s'.1 s'.2.
Proof.
  intros (L & Hadv & Hb & ->) Hinv.
  destruct (population_step _ _ _ _ _ Hinv Hadv Hb) as [_ Hpop].
  eapply population_invariant_sublist; [|exact Hpop].
  destruct (call_body_sublists _ _ _ _ Hb) as (Hk & Hbest & _).
  by etrans.
Qed.

Lemma engine_steps_invariant self (s s' : playback.OngoingPlayback * list HT) :
  engine_steps self s s' →
  population_invariant s.1 s.2 → population_invariant s'.1 s'.2.
Proof.
  induction 1 as [|s1 s2 s3 Hstep _ IH]; [done|].
  intros Hinv. by apply IH, (engine_step_invariant self s1).
Qed.

Lemma population_invariant_nil p : population_invariant p ([] : list HT).
Proof. split; constructor. Qed.

Lemma reachable_invariant (first_index : Z) self (onsets : list Q)
    (s : playback.OngoingPlayback * list HT) :
  reachable first_index self onsets s → population_invariant s.1 s.2.
Proof.
  intros Hr. apply (engine_steps_invariant _ _ _ Hr).
  apply population_invariant_nil.
Qed.

End Invariants.

(** ** The loop of [__call__] *)

Section Loop.

Context {Correction : Type} `{!HypothesisCorrection Correction}.

Local Abbreviation HT := (HypothesisTracker Correction).
Local Abbreviation Config := (TactusHypothesisTracker Correction).

Implicit Types (self : Config) (p : playback.OngoingPlayback)
  (hts : list HT) (s : playback.OngoingPlayback * list HT).

Lemma call_loop_eq self p hts :
  call_loop self p hts =
  match playback.advance p with
  | None => Some hts
  | Some p' =>
      match call_body self p' hts with
      | None => None
      | Some locals => call_loop self p' (k_best_hs locals)
      end
  end.
Proof.
  rewrite call_loop_equation_1. unfold inspect.
  assert (∀ o (e : playback.advance p = o),
    call_loop_unfold_clause_1 self p (o ↾ e) hts =
    match o with
    | None => Some hts
    | Some p' =>
        match call_body self p' hts with
        | None => None
        | Some locals => call_loop self p' (k_best_hs locals)
        end
    end) as G; [|apply G].
  intros [p'|] e; simp call_loop; [|done].
  destruct (call_body self p' hts); simp call_loop; done.
Qed.

Lemma engine_step_call_loop self s s' :
  engine_step self s s' → call_loop self s.1 s.2 = call_loop self s'.1 s'.2.
Proof.
  intros (L & Hadv & Hb & Heq).
  rewrite (call_loop_eq self s.1), Hadv, Hb. by rewrite Heq.
Qed.

Lemma engine_steps_call_loop self s s' :
  engine_steps self s s' → call_loop self s.1 s.2 = call_loop self s'.1 s'.2.
Proof.
  induction 1 as [|s1 s2 s3 Hstep _ IH]; [done|].
  by rewrite (engine_step_call_loop _ _ _ Hstep).
Qed.

(** The loop ends: it goes through finitely many iterations, none of which
    raises, and returns the population of the state where [advance]
    answers [False]. *)
Lemma call_loop_final self p hts :
  ∃ p' r, engine_steps self (p, hts) (p', r)
          ∧ playback.advance p' = None
          ∧ call_loop self p hts = Some r.
Proof.
  remember (playback.remaining p) as m eqn:Hm. revert p hts Hm.
  induction m as [m IH] using lt_wf_ind. intros p hts Hm.
  rewrite call_loop_eq. destruct (playback.advance p) as [p1|] eqn:Hadv.
  - pose proof Hadv as [Hlt Hp1]%advance_Some.
    destruct (call_body_total self p1 hts) as [L HL].
    { rewrite Hp1. simpl. lia. }
    rewrite HL.
    destruct (IH (playback.remaining p1)) with (p := p1) (hts := k_best_hs L)
      as (p' & r & Hsteps & Hend & Hloop); [|done|].
    { subst m p1. unfold playback.remaining. simpl. lia. }
    exists p', r. split; [|done].
    eapply rtc_l; [|exact Hsteps]. exists L. done.
  - exists p, hts. split; [apply rtc_refl | done].
Qed.

Lemma call_loop_total self p hts : is_Some (call_loop self p hts).
Proof. destruct (call_loop_final self p hts) as (? & r & _ & _ & ->). by eexists. Qed.

(** The run of [__call__] returns the mapping built from the population
    of a reachable state where [advance] answers [False]. *)
Lemma call_final (first_index : Z) self (onsets : list Q) :
  ∃ p r, reachable first_index self onsets (p, r)
         ∧ playback.advance p = None
         ∧ call_loop self (playback.new first_index onsets) [] = Some r
         ∧ call first_index self onsets
             = Some (py_dict ((λ ht, (name ht, ht)) <$> r)).
Proof.
  destruct (call_loop_final self (playback.new first_index onsets) [])
    as (p & r & Hsteps & Hend & Hloop).
  exists p, r. unfold call. rewrite Hloop. done.
Qed.

End Loop.

(** ** Determinism *)

Section Determinism.

Context {Correction : Type} `{!HypothesisCorrection Correction}.

Local Abbreviation HT := (HypothesisTracker Correction).
Local Abbreviation Config := (TactusHypothesisTracker Correction).

Variables c1 c2 : Config.
Hypothesis Hsame : same_configuration c1 c2.

Implicit Types (p : playback.OngoingPlayback) (hts : list HT).

Lemma generate_same p : _generate_new_hypothesis c1 p = _generate_new_hypothesis c2 p.
Proof.
  unfold _generate_new_hypothesis.
  induction (xrange (playback.discovered_index p - 1)) as [|k ks IH];
    simpl; [done|].
  by rewrite (same_min _ _ Hsame), (same_max _ _ Hsame), IH.
Qed.

Lemma update_same p hts :
  (λ h, update h p (eval_f c1) (corr_f c1)) <$> hts
    = (λ h, update h p (eval_f c2) (corr_f c2)) <$> hts.
Proof.
  apply list_fmap_ext. intros _ h _. unfold update.
  by rewrite (same_corr _ _ Hsame), (same_eval _ _ Hsame).
Qed.

Lemma trim_compare_same p (ht : HT) (r acc : list HT) (t : list (HT * HT)) :
  trim_compare c1 p ht r acc t = trim_compare c2 p ht r acc t.
Proof.
  revert acc t. induction r as [|n r IH]; intros acc t; simpl; [done|].
  rewrite (same_sim _ _ Hsame), (same_epsilon _ _ Hsame).
  destruct (negb _); apply IH.
Qed.

Lemma trim_loop_same p (r kept : list HT) (t : list (HT * HT)) :
  trim_loop c1 p r kept t = trim_loop c2 p r kept t.
Proof.
  remember (length r) as m eqn:Hm. revert r kept t Hm.
  induction m as [m IH] using lt_wf_ind. intros [|ht r] kept t Hm;
    simp trim_loop; [done|].
  rewrite trim_compare_same.
  eapply IH; [|reflexivity]. subst m. rewrite trim_compare_spec. simpl.
  pose proof (length_filter (λ n, ¬ similar c2 p ht n) r). lia.
Qed.

Lemma split_same hts :
  _split_k_best_hypotheses c1 hts = _split_k_best_hypotheses c2 hts.
Proof. unfold _split_k_best_hypotheses. by rewrite (same_k _ _ Hsame). Qed.

Lemma call_body_same p hts : call_body c1 p hts = call_body c2 p hts.
Proof.
  unfold call_body, _trim_similar_hypotheses. rewrite generate_same.
  destruct (_generate_new_hypothesis c2 p) as [n|]; simpl; [|done].
  rewrite update_same, trim_loop_same.
  destruct (trim_loop c2 p _ [] []) as [kept trimmed].
  by rewrite split_same.
Qed.

Lemma call_loop_same p hts : call_loop c1 p hts = call_loop c2 p hts.
Proof.
  remember (playback.remaining p) as m eqn:Hm. revert p hts Hm.
  induction m as [m IH] using lt_wf_ind. intros p hts Hm.
  rewrite !call_loop_eq. destruct (playback.advance p) as [p1|] eqn:Hadv; [|done].
  rewrite call_body_same. destruct (call_body c2 p1 hts) as [L|]; [|done].
  eapply IH; [|reflexivity].
  apply advance_Some in Hadv as [Hlt ->].
  subst m. unfold playback.remaining. simpl. lia.
Qed.

End Determinism.

(** ** Runs with any sorting algorithm *)

(** [a < b] on tuples, and [a <= b] as the code can observe it. *)
Lemma tuple_lt_true (a b : Q * nat) :
  tuple_lt a b = true ↔ (a.1 < b.1)%Q ∨ ((a.1 == b.1)%Q ∧ (a.2 < b.2)%nat).
Proof.
  unfold tuple_lt. destruct (Qeq_bool a.1 b.1) eqn:He.
  - apply Qeq_bool_iff in He. rewrite Nat.ltb_lt. split.
    + intros Hlt. by right.
    + intros [Hlt|[_ Hlt]]; [lra | done].
  - apply Qeq_bool_neq in He.
    rewrite negb_true_iff, <- not_true_iff_false, Qle_bool_iff. split.
    + intros Hn. left. by apply Qnot_le_lt.
    + intros [Hlt|[Heq _]] Hle; [lra | done].
Qed.

Lemma tuple_lt_false (a b : Q * nat) :
  tuple_lt b a = false
  ↔ (a.1 < b.1)%Q ∨ ((a.1 == b.1)%Q ∧ (a.2 ≤ b.2)%nat).
Proof.
  rewrite <- not_true_iff_false, tuple_lt_true. split.
  - intros Hn. destruct (Q_dec a.1 b.1) as [[Hlt|Hgt]|Heq].
    + by left.
    + exfalso. apply Hn. by left.
    + right. split; [done|]. apply Nat.nlt_ge. intros Hlt. apply Hn.
      right. split; [by symmetry | done].
  - intros [Hlt|[Heq Hle]] [Hgt|[Heq' Hlt']]; try lra. lia.
Qed.

Lemma tuple_le_trans (a b c : Q * nat) :
  tuple_lt b a = false → tuple_lt c b = false → tuple_lt c a = false.
Proof.
  rewrite !tuple_lt_false.
  intros [H1|[H1 H1']] [H2|[H2 H2']].
  - left. lra.
  - left. lra.
  - left. lra.
  - right. split; [lra | lia].
Qed.

Lemma tuple_lt_le (a b : Q * nat) :
  tuple_lt a b = true → tuple_lt b a = false.
Proof.
  rewrite tuple_lt_true, tuple_lt_false.
  intros [Hlt|[Heq Hlt]]; [by left | right; split; [done | lia]].
Qed.

Lemma sorted_insert_Permutation (x : Q * nat) (l : list (Q * nat)) :
  sorted_insert x l ≡ₚ x :: l.
Proof.
  induction l as [|y l IH]; simpl; [done|].
  destruct (tuple_lt y x); [|done]. rewrite IH. apply perm_swap.
Qed.

Lemma sorted_insert_ascending (x : Q * nat) (l : list (Q * nat)) :
  StronglySorted (λ a b, tuple_lt b a = false) l →
  StronglySorted (λ a b, tuple_lt b a = false) (sorted_insert x l).
Proof.
  induction 1 as [|y l Hs IH Hy]; simpl; [repeat constructor|].
  destruct (tuple_lt y x) eqn:Hc.
  - constructor; [done|]. rewrite sorted_insert_Permutation.
    constructor; [by apply tuple_lt_le | done].
  - constructor; [by constructor|]. constructor; [done|].
    eapply Forall_impl; [exact Hy|]. intros z Hz. simpl in *.
    by apply (tuple_le_trans x y z).
Qed.

(** The two insertion sorts are sorting algorithms. *)
Lemma sorted_sorting : sorting sorted.
Proof.
  intros l. induction l as [|x l [IHp IHs]]; simpl; [by split; [|constructor]|].
  split; [by rewrite sorted_insert_Permutation, IHp|].
  by apply sorted_insert_ascending.
Qed.

Lemma sorted_backwards_sorting : sorting sorted_backwards.
Proof.
  intros l. unfold sorted_backwards.
  induction l as [|x l [IHp IHs]] using rev_ind; [by split; [|constructor]|].
  rewrite foldl_snoc. split.
  - rewrite sorted_insert_Permutation, IHp. by rewrite Permutation_app_comm.
  - by apply sorted_insert_ascending.
Qed.

Section AnySortFacts.

Context {Correction : Type} `{!HypothesisCorrection Correction}.

Local Abbreviation HT := (HypothesisTracker Correction).
Local Abbreviation Config := (TactusHypothesisTracker Correction).

Implicit Types (self : Config) (p : playback.OngoingPlayback)
  (hts : list HT) (srt : list (Q * nat) → list (Q * nat)).

(** The selection does not depend on the sorting algorithm: the tuples
    have a single ascending arrangement. *)
Lemma split_k_best_with_any srt self hts :
  sorting srt →
  split_k_best_with srt self hts = _split_k_best_hypotheses self hts.
Proof.
  intros Hsrt. unfold split_k_best_with, _split_k_best_hypotheses.
  destruct (mapM _ (enumerate hts)) as [info|] eqn:Hinfo; simpl; [|done].
  apply hts_info_spec in Hinfo as (cs & _ & ->).
  destruct (Hsrt (info_of <$> enumerate cs)) as [Hp Hs].
  by rewrite (sorted_unique cs _ Hp Hs).
Qed.

Lemma call_body_with_any srt self p hts :
  sorting srt → call_body_with srt self p hts = call_body self p hts.
Proof.
  intros Hsrt. unfold call_body_with, call_body.
  destruct (_generate_new_hypothesis self p) as [n|]; simpl; [|done].
  destruct (_trim_similar_hypotheses self _ p) as [kept trimmed].
  by rewrite split_k_best_with_any.
Qed.

(** Every run of the loop, whatever sorting algorithms it uses, ends with
    the population that [call_loop] computes. *)
Lemma runs_to_call_loop self p hts (r : list HT) :
  runs_to self p hts r → call_loop self p hts = Some r.
Proof.
  induction 1 as [p hts Hend|srt p p' hts L r Hsrt Hadv Hb _ IH];
    rewrite call_loop_eq.
  - by rewrite Hend.
  - rewrite call_body_with_any in Hb by done. by rewrite Hadv, Hb.
Qed.

Lemma engine_steps_runs_to self (s s' : playback.OngoingPlayback * list HT) :
  engine_steps self s s' → playback.advance s'.1 = None →
  runs_to self s.1 s.2 s'.2.
Proof.
  induction 1 as [s|s1 s2 s3 (L & Hadv & Hb & Heq) _ IH]; intros Hend.
  - by constructor.
  - apply (runs_to_iteration self sorted s1.1 s2.1 s1.2 L);
      [apply sorted_sorting | done | | ].
    + by rewrite call_body_with_any by apply sorted_sorting.
    + rewrite <- Heq. by apply IH.
Qed.

Lemma call_loop_runs_to self p hts (r : list HT) :
  call_loop self p hts = Some r → runs_to self p hts r.
Proof.
  intros Hloop.
  destruct (call_loop_final self p hts) as (p' & r' & Hsteps & Hend & Hloop').
  assert (r' = r) as -> by congruence.
  exact (engine_steps_runs_to self (p, hts) (p', r) Hsteps Hend).
Qed.

(** The run that [call] computes is a run. *)
Lemma call_returns (first_index : Z) self (onsets : list Q)
    (m : gmap (Z * Z) HT) :
  call first_index self onsets = Some m → returns first_index self onsets m.
Proof.
  unfold call.
  destruct (call_loop self (playback.new first_index onsets) []) as [r|] eqn:Hr;
    simpl; [|intros Heq; inversion Heq].
  intros Heq. inversion Heq. exists r. split; [|done].
  by apply call_loop_runs_to.
Qed.

(** Iterations computed with a sorting algorithm up to the end of the
    onsets are a run. *)
Lemma run_steps_with_runs_to srt (n : nat) self
    (s s' : playback.OngoingPlayback * list HT) :
  sorting srt →
  run_steps_with srt n self s = Some s' →
  playback.advance s'.1 = None →
  runs_to self s.1 s.2 s'.2.
Proof.
  intros Hsrt. revert s. induction n as [|n IH]; intros s; simpl.
  - intros Heq Hend. inversion Heq; subst. by constructor.
  - destruct (playback.advance s.1) as [p'|] eqn:Hadv; simpl;
      [|intros Heq; inversion Heq].
    destruct (call_body_with srt self p' s.2) as [L|] eqn:Hb; simpl;
      [|intros Heq; inversion Heq].
    intros Hrun Hend.
    apply (runs_to_iteration self srt s.1 p' s.2 L); [done..|].
    exact (IH (p', k_best_hs L) Hrun Hend).
Qed.

End AnySortFacts.

(** ** Runs without generation *)

Section Quiet.

Context {Correction : Type} `{!HypothesisCorrection Correction}.

Local Abbreviation HT := (HypothesisTracker Correction).
Local Abbreviation Config := (TactusHypothesisTracker Correction).

Implicit Types (self : Config) (p : playback.OngoingPlayback)
  (s : playback.OngoingPlayback * list HT).

Lemma run_steps_reachable (n : nat) self s s' :
  run_steps n self s = Some s' → engine_steps self s s'.
Proof.
  revert s. induction n as [|n IH]; intros s; simpl.
  - intros Heq. inversion Heq. apply rtc_refl.
  - destruct (playback.advance s.1) as [p'|] eqn:Hadv; simpl;
      [|intros Heq; inversion Heq].
    destruct (call_body self p' s.2) as [L|] eqn:Hb; simpl;
      [|intros Heq; inversion Heq].
    intros Hrun. eapply rtc_l; [|exact (IH _ Hrun)]. by exists L.
Qed.

(** An iteration that generates nothing on an empty population leaves
    every local list empty. *)
Lemma call_body_quiet self p (L : Locals Correction) :
  call_body self p [] = Some L → n_hts L = [] →
  hypothesis_trackers L = [] ∧ kept_hs L = [] ∧ k_best_hs L = [] ∧ other_hs L = [].
Proof.
  intros Hb Hn.
  destruct (call_body_inv _ _ _ _ Hb) as (_ & Hu & _).
  destruct (call_body_sublists _ _ _ _ Hb) as (Hk & Hbest & Hother & _).
  rewrite Hn in Hu. simpl in Hu. rewrite Hu in Hk.
  apply sublist_nil_r in Hk. rewrite Hk in Hbest, Hother.
  apply sublist_nil_r in Hbest, Hother. done.
Qed.

(** When no cursor position satisfying [G] generates a tracker, the
    population of a run started empty stays empty. *)
Lemma engine_steps_quiet self (G : playback.OngoingPlayback → Prop) s s' :
  (∀ p p', G p → playback.advance p = Some p' → G p') →
  (∀ p p' n, G p → playback.advance p = Some p' →
             _generate_new_hypothesis self p' = Some n → n = []) →
  engine_steps self s s' → G s.1 → s.2 = [] → G s'.1 ∧ s'.2 = [].
Proof.
  intros Hadv Hgen. induction 1 as [|s1 s2 s3 Hstep _ IH]; [done|].
  intros HG Hnil. destruct Hstep as (L & Ha & Hb & Heq).
  apply IH; [by eapply Hadv|]. rewrite Heq. rewrite Hnil in Hb.
  apply (call_body_quiet _ _ _ Hb).
  destruct (call_body_inv _ _ _ _ Hb) as (Hg & _). by eapply Hgen.
Qed.

Lemma filter_none {A} (P : A → Prop) `{!∀ x, Decision (P x)} (l : list A) :
  (∀ x, ¬ P x) → filter P l = [].
Proof.
  intros Hn. induction l as [|x l IH]; [done|].
  by rewrite filter_cons_False.
Qed.

Lemma generate_empty_range self p (n : list HT) :
  (max_delta self < min_delta self)%Q →
  _generate_new_hypothesis self p = Some n → n = [].
Proof.
  intros Hlt [Hn _]%generate_loop_Some.
  apply fmap_nil_inv with (f := name). rewrite Hn.
  rewrite filter_none; [done|].
  intros k. by apply delta_in_range_empty.
Qed.

Lemma generate_short self p (n : list HT) :
  (length (playback.onset_times p) < 2)%nat →
  playback.discovered_index p < Z.of_nat (length (playback.onset_times p)) →
  _generate_new_hypothesis self p = Some n → n = [].
Proof.
  intros Hlen Hd. rewrite generate_nonpos by lia. by intros [= <-].
Qed.

End Quiet.


(** * The claims *)

Section Claims.

Context {Correction : Type} `{!HypothesisCorrection Correction}.

Local Abbreviation HT := (HypothesisTracker Correction).
Local Abbreviation Config := (TactusHypothesisTracker Correction).

Implicit Types (self : Config) (p : playback.OngoingPlayback)
  (hts : list HT) (h : HT).

(** C1.  Generation.  In every iteration of the loop of [__call__], entered
    with the cursor [p] and the population [hts], let [end_index] be the
    discovered index minus one.  The names of the new trackers are the pairs
    [(k, end_index)] for exactly the [k] of [xrange(end_index)] (that is
    [0 <= k < end_index]) whose [delta = onset_times[end_index] -
    onset_times[k]] satisfies [min_delta <= delta <= max_delta], in
    increasing order of [k]; the new trackers come after the old population,
    whose order is kept, when all of them are updated; and when
    [min_delta > max_delta] no iteration generates a tracker and every run
    returns the empty mapping. *)
Theorem generation_by_period_range self p hts (L : Locals Correction) :
  call_body self p hts = Some L →
  let end_index := playback.discovered_index p - 1 in
  name <$> n_hts L
    = (λ k, (k, end_index)) <$>
        filter (λ k, delta_in_range self (playback.onset_times p) end_index k)
          (xrange end_index)
  ∧ (∀ k e, (k, e) ∈ (name <$> n_hts L) ↔
       e = end_index ∧ 0 ≤ k < end_index ∧
       ∃ a b, py_getitem (playback.onset_times p) end_index = Some a ∧
              py_getitem (playback.onset_times p) k = Some b ∧
              (min_delta self <= a - b)%Q ∧ (a - b <= max_delta self)%Q)
  ∧ StronglySorted (λ n1 n2, n1.1 < n2.1) (name <$> n_hts L)
  ∧ hypothesis_trackers L
      = ((λ h, update h p (eval_f self) (corr_f self)) <$> hts)
        ++ ((λ h, update h p (eval_f self) (corr_f self)) <$> n_hts L)
  ∧ name <$> hypothesis_trackers L = (name <$> hts) ++ (name <$> n_hts L)
  ∧ ((max_delta self < min_delta self)%Q →
       n_hts L = []
       ∧ ∀ first_index onsets, call first_index self onsets = Some ∅).
Proof.
  intros Hb end_index.
  destruct (call_body_inv _ _ _ _ Hb) as (Hg & Hu & _).
  pose proof Hg as [Hn _]%generate_loop_Some. fold end_index in Hn.
  split; [exact Hn|]. split; [|split; [|split; [|split]]].
  - intros k e. rewrite Hn, list_elem_of_fmap. split.
    + intros (k' & Heq & [Hr Hk%elem_of_xrange]%list_elem_of_filter).
      inversion Heq; subst k' e.
      apply delta_in_range_bounds in Hr. done.
    + intros (-> & Hk & Hr). exists k. split; [done|].
      apply list_elem_of_filter. split.
      * by apply delta_in_range_bounds.
      * by apply elem_of_xrange.
  - rewrite Hn.
    apply (StronglySorted_fmap _ Z.lt); [by intros k k' Hlt|].
    apply StronglySorted_filter, xrange_increasing.
  - by rewrite Hu, fmap_app.
  - by rewrite Hu, names_update, fmap_app.
  - intros Hlt. split; [by eapply generate_empty_range|].
    intros first_index onsets.
    destruct (call_final first_index self onsets) as (p' & r & Hr & _ & _ & ->).
    destruct (engine_steps_quiet self (λ _, True) _ _
                (λ _ _ _ _, I)
                (λ _ p1 n _ _ Hgen, generate_empty_range self p1 n Hlt Hgen)
                Hr I eq_refl) as [_ Hnil].
    simpl in Hnil. by rewrite Hnil.
Qed.

(** C2.  Selection.  When [max_hypotheses] is not negative and the selection
    of the kept population [hts] returns [(best, other)]: [best] has
    [min(max_hypotheses, len(hts))] members; its members are the trackers at
    the positions of the first [max_hypotheses] entries of the ranking, the
    permutation of the population that is sorted by descending latest
    confidence with ties in generation order, and [other] holds the
    remaining ones; both are in population order and together they
    are the kept population; no retained tracker has a latest confidence
    strictly below that of a dropped tracker; and with [max_hypotheses = 0]
    nothing is retained. *)
Theorem selection_keeps_k_best self hts (best other : list HT) :
  0 ≤ max_hypotheses self →
  _split_k_best_hypotheses self hts = Some (best, other) →
  length best = (Z.to_nat (max_hypotheses self) `min` length hts)%nat
  ∧ (∃ cs, Forall2 (λ h c, conf h = Some c) hts cs
           ∧ rank_by_confidence (enumerate cs) ≡ₚ enumerate cs
           ∧ StronglySorted ranked_before (rank_by_confidence (enumerate cs))
           ∧ best = (filter (λ x, x.1 ∈ chosen self cs) (enumerate hts)).*2
           ∧ other = (filter (λ x, x.1 ∉ chosen self cs) (enumerate hts)).*2)
  ∧ sublist best hts ∧ sublist other hts ∧ best ++ other ≡ₚ hts
  ∧ (∀ r d cr cd, r ∈ best → d ∈ other →
       conf r = Some cr → conf d = Some cd → ¬ (cr < cd)%Q)
  ∧ (max_hypotheses self = 0 → best = []).
Proof.
  intros Hk Hs.
  split; [by apply (split_k_best_length self hts best other)|].
  split.
  { destruct (split_k_best_spec _ _ _ _ Hk Hs) as (cs & Hcs & Hbest & Hother).
    exists cs. split; [done|]. split; [apply rank_Permutation|].
    split; [|done]. apply rank_order. rewrite enumerate_fst.
    apply seq_increasing. }
  destruct (split_k_best_sublist _ _ _ _ Hs) as (H1 & H2 & H3).
  do 3 (split; [done|]). split.
  - intros r d cr cd Hr Hd Hcr Hcd.
    apply Qle_not_lt. by eapply (split_k_best_order self hts best other r d).
  - intros H0. by eapply split_k_best_zero.
Qed.

(** C3.  Trimming computes the greedy partition by representatives: the
    first remaining tracker is kept, the later ones whose similarity to it
    exceeds [1 - similarity_epsilon] are recorded as redundant with it, and
    the scheme goes on with the others.  The kept trackers are in population
    order, kept and trimmed trackers together are the population, for every
    two kept trackers [a] (earlier) and [b] (later)
    [sim_f(a, b, state) <= 1 - similarity_epsilon], and every trimmed
    tracker is recorded with a kept tracker it is similar to. *)
Theorem trimming_is_greedy_partition self hts p :
  greedy_partition self p hts (_trim_similar_hypotheses self hts p).1
    (_trim_similar_hypotheses self hts p).2
  ∧ sublist (_trim_similar_hypotheses self hts p).1 hts
  ∧ (_trim_similar_hypotheses self hts p).1
      ++ (_trim_similar_hypotheses self hts p).2.*1 ≡ₚ hts
  ∧ ForallOrdPairs
      (λ a b, (sim_f self a b p <= 1 - similarity_epsilon self)%Q)
      (_trim_similar_hypotheses self hts p).1
  ∧ Forall (λ t, t.2 ∈ (_trim_similar_hypotheses self hts p).1
                 ∧ (1 - similarity_epsilon self < sim_f self t.2 t.1 p)%Q)
      (_trim_similar_hypotheses self hts p).2.
Proof.
  pose proof (trim_greedy self p hts) as HG.
  split; [done|]. split; [by eapply greedy_sublist|].
  split; [by eapply greedy_permutation|].
  split; [by eapply greedy_pairwise|].
  exact (greedy_trimmed _ _ _ _ _ HG).
Qed.

(** C4.  [update] first records the correction given by [corr_f] under the
    discovered index and makes its new hypothesis the current one; the
    confidence it then records under the same index is [eval_f] applied to
    that corrected tracker; each history grows by exactly one entry and
    nothing else changes. *)
Theorem update_scores_corrected_hypothesis h p
    (ev : HT → playback.OngoingPlayback → Q)
    (co : HT → playback.OngoingPlayback → Correction) :
  corr (update h p ev co)
    = corr h ++ [(playback.discovered_index p, co h p)]
  ∧ cur (update h p ev co) = new_hypothesis (co h p)
  ∧ confs (update h p ev co)
      = confs h ++ [(playback.discovered_index p, ev (corrected h p co) p)]
  ∧ (cur (corrected h p co) = new_hypothesis (co h p)
     ∧ corr (corrected h p co)
         = corr h ++ [(playback.discovered_index p, co h p)]
     ∧ confs (corrected h p co) = confs h)
  ∧ length (corr (update h p ev co)) = S (length (corr h))
  ∧ length (confs (update h p ev co)) = S (length (confs h))
  ∧ name (update h p ev co) = name h
  ∧ beta (update h p ev co) = beta h.
Proof.
  repeat split; try reflexivity.
  - rewrite update_corr, length_app. simpl. lia.
  - rewrite update_confs, length_app. simpl. lia.
Qed.

End Claims.

(** ** Trackers that left the population *)

Section Absent.

Context {Correction : Type} `{!HypothesisCorrection Correction}.

Local Abbreviation HT := (HypothesisTracker Correction).
Local Abbreviation Config := (TactusHypothesisTracker Correction).

Implicit Types (self : Config) (p : playback.OngoingPlayback)
  (hts : list HT) (o : Z * Z) (s : playback.OngoingPlayback * list HT).

(** A name generated before the cursor reached [p] and absent from the
    population is absent from every list of the next iteration. *)
Lemma absent_step self p hts p' (L : Locals Correction) o :
  o ∉ (name <$> hts) → o.2 < playback.discovered_index p →
  playback.advance p = Some p' → call_body self p' hts = Some L →
  (o ∉ (name <$> hypothesis_trackers L))
  ∧ (o ∉ (name <$> k_best_hs L))
  ∧ o.2 < playback.discovered_index p'.
Proof.
  intros Hout Hlt [_ ->]%advance_Some Hb.
  destruct (call_body_inv _ _ _ _ Hb) as (Hg & Hu & _).
  destruct (call_body_sublists _ _ _ _ Hb) as (Hk & Hbest & _).
  apply generate_names in Hg as (Hnames & _). simpl in *.
  assert (o ∉ (name <$> hypothesis_trackers L)) as Hu'.
  { rewrite Hu, names_update, fmap_app. apply not_elem_of_app. split; [done|].
    intros (h & -> & Hh)%list_elem_of_fmap.
    eapply Forall_forall in Hnames; [|exact Hh]. lia. }
  split; [done|]. split; [|lia].
  intros Hin. apply Hu'. revert Hin.
  apply sublist_subseteq, fmap_sublist. by etrans.
Qed.

Lemma absent_steps self s s' o :
  engine_steps self s s' →
  o ∉ (name <$> s.2) → o.2 < playback.discovered_index s.1 →
  (o ∉ (name <$> s'.2)) ∧ o.2 < playback.discovered_index s'.1.
Proof.
  induction 1 as [|s1 s2 s3 Hstep _ IH]; [done|].
  intros Hout Hlt. destruct Hstep as (L & Hadv & Hb & Heq).
  destruct (absent_step _ _ _ _ _ _ Hout Hlt Hadv Hb) as (_ & Hbest & Hlt').
  apply IH; [by rewrite Heq | done].
Qed.

End Absent.

Section RunClaims.

Context {Correction : Type} `{!HypothesisCorrection Correction}.

Local Abbreviation HT := (HypothesisTracker Correction).
Local Abbreviation Config := (TactusHypothesisTracker Correction).

Implicit Types (self : Config) (p : playback.OngoingPlayback)
  (hts : list HT) (h : HT) (s : playback.OngoingPlayback * list HT).

(** C5.  In every state [s] between two iterations of a run, and in every
    list of the next iteration (the population after [extend], after the
    updates, the kept, trimmed, retained and dropped trackers), every
    tracker has as many corrections as confidences, the discovered indices
    of both histories are strictly increasing, and its current hypothesis is
    the new hypothesis of its last correction, or [beta] when it has none. *)
Theorem tracker_invariants_hold (first_index : Z) self (onsets : list Q) s :
  reachable first_index self onsets s →
  Forall tracker_invariant s.2
  ∧ ∀ p' (L : Locals Correction),
      playback.advance s.1 = Some p' → call_body self p' s.2 = Some L →
      Forall tracker_invariant (s.2 ++ n_hts L)
      ∧ Forall tracker_invariant (hypothesis_trackers L)
      ∧ Forall tracker_invariant (kept_hs L)
      ∧ Forall tracker_invariant (trimmed_hs L).*1
      ∧ Forall tracker_invariant (k_best_hs L)
      ∧ Forall tracker_invariant (other_hs L).
Proof.
  intros Hinv%reachable_invariant. split; [apply Hinv|].
  intros p' L Hadv Hb.
  destruct (population_step _ _ _ _ _ Hinv Hadv Hb) as [Hext Hpop].
  destruct (call_body_sublists _ _ _ _ Hb) as (Hk & Hbest & Hother & Htr).
  pose proof (pop_trackers _ _ Hpop) as Hall.
  assert (∀ l, l ⊆ hypothesis_trackers L → Forall tracker_invariant l) as Hsub.
  { intros l Hl. apply Forall_forall. intros h Hh%Hl. revert h Hh.
    by apply Forall_forall. }
  split; [done|]. split; [done|].
  split; [by apply Hsub, sublist_subseteq|].
  split; [|split].
  - apply Hsub. intros h (t & -> & Ht)%list_elem_of_fmap.
    eapply Forall_forall in Htr; [|exact Ht]. tauto.
  - apply Hsub, sublist_subseteq. by etrans.
  - apply Hsub, sublist_subseteq. by etrans.
Qed.

(** C6.  The mapping returned by a run has exactly the names of the
    surviving trackers as keys: a key [(k, end_index)] holds the tracker
    [ht] iff [ht] survived and is named [(k, end_index)], every key
    satisfies [0 <= k < end_index], and the tracker stored under a key is
    named by that key. *)
Theorem returned_mapping_is_keyed_by_origin (first_index : Z) self
    (onsets : list Q) (m : gmap (Z * Z) HT) :
  call first_index self onsets = Some m →
  ∃ survivors,
    call_loop self (playback.new first_index onsets) [] = Some survivors
    ∧ (∀ key h, m !! key = Some h ↔ h ∈ survivors ∧ name h = key)
    ∧ dom m = list_to_set (name <$> survivors)
    ∧ (∀ key h, m !! key = Some h → 0 ≤ key.1 < key.2 ∧ name h = key).
Proof.
  intros Hcall.
  destruct (call_final first_index self onsets) as (p & r & Hr & _ & Hloop & Hm).
  rewrite Hm in Hcall. inversion Hcall; subst m. clear Hcall.
  apply reachable_invariant in Hr as [_ _ Hnames Hnd]. simpl in *.
  exists r. split; [done|].
  assert (∀ key h,
    py_dict ((λ ht, (name ht, ht)) <$> r) !! key = Some h
    ↔ h ∈ r ∧ name h = key) as Hlook.
  { intros key h. rewrite py_dict_lookup_Some.
    - rewrite list_elem_of_fmap. split.
      + intros (h' & Heq & Hh'). inversion Heq; subst. done.
      + intros [Hh <-]. by exists h.
    - by rewrite <- list_fmap_compose. }
  split; [done|]. split.
  - apply set_eq. intros key.
    rewrite elem_of_dom, elem_of_list_to_set, list_elem_of_fmap. split.
    + intros [h [Hh <-]%Hlook]. by exists h.
    + intros (h & -> & Hh). exists h. by apply Hlook.
  - intros key h [Hh <-]%Hlook. split; [|done].
    eapply Forall_forall in Hnames; [|exact Hh]. apply Hnames.
Qed.

(** C7.  On an onset sequence with fewer than two onsets a run does not
    raise and returns the empty mapping; its population is empty in every
    state and no iteration generates a tracker; the candidate range of the
    generation is empty whenever [end_index <= 0]. *)
Theorem short_sequences_yield_nothing (first_index : Z) self (onsets : list Q) :
  (length onsets < 2)%nat →
  call first_index self onsets = Some ∅
  ∧ (∀ s, reachable first_index self onsets s →
       s.2 = []
       ∧ ∀ p' (L : Locals Correction),
           playback.advance s.1 = Some p' → call_body self p' s.2 = Some L →
           n_hts L = [] ∧ hypothesis_trackers L = [] ∧ k_best_hs L = [])
  ∧ (∀ p, playback.discovered_index p - 1 ≤ 0 →
       _generate_new_hypothesis self p = Some []).
Proof.
  intros Hlen.
  set (G := λ p : playback.OngoingPlayback,
              (length (playback.onset_times p) < 2)%nat).
  assert (∀ p p', G p → playback.advance p = Some p' → G p') as HGadv.
  { intros p p' HG [_ ->]%advance_Some. exact HG. }
  assert (∀ p p' (n : list HT), G p → playback.advance p = Some p' →
            _generate_new_hypothesis self p' = Some n → n = []) as HGgen.
  { intros p p' n HG [Hlt ->]%advance_Some.
    apply generate_short; simpl; [exact HG | lia]. }
  assert (∀ s, reachable first_index self onsets s → G s.1 ∧ s.2 = []) as Hquiet.
  { intros s Hr.
    by apply (engine_steps_quiet self G _ _ HGadv HGgen Hr). }
  split; [|split].
  - destruct (call_final first_index self onsets) as (p & r & Hr & _ & _ & ->).
    apply Hquiet in Hr as [_ Hnil]. simpl in Hnil. by rewrite Hnil.
  - intros s [HG Hnil]%Hquiet. split; [done|].
    intros p' L Hadv Hb. rewrite Hnil in Hb.
    assert (n_hts L = []) as Hn.
    { destruct (call_body_inv _ _ _ _ Hb) as (Hg & _). by eapply HGgen. }
    destruct (call_body_quiet _ _ _ Hb Hn) as (? & _ & ? & _). done.
  - intros p. apply generate_nonpos.
Qed.

(** C8.  Two runs of the engine on the same onsets return the same
    mapping.  A run may sort with any sorting algorithm, stable or not, and
    with another one in each iteration and in each run; the evaluation,
    correction and similarity callables are functions, and the
    configurations of the two runs may differ as long as their callables
    return the same values on all arguments and their settings are equal.
    The two returned mappings are then equal, with the same keys and the
    same trackers, correction and confidence histories included, and they
    are the mapping that [call] computes. *)
Theorem runs_are_deterministic (first_index : Z) (c1 c2 : Config)
    (onsets : list Q) (m1 m2 : gmap (Z * Z) HT) :
  same_configuration c1 c2 →
  returns first_index c1 onsets m1 →
  returns first_index c2 onsets m2 →
  m1 = m2
  ∧ call first_index c1 onsets = Some m1
  ∧ call first_index c2 onsets = Some m2.
Proof.
  intros Hsame (r1 & Hr1 & ->) (r2 & Hr2 & ->).
  apply runs_to_call_loop in Hr1, Hr2.
  pose proof (call_loop_same c1 c2 Hsame (playback.new first_index onsets) [])
    as Heq.
  assert (r1 = r2) as -> by congruence.
  split; [done|]. unfold call. by rewrite Hr1, Hr2.
Qed.

(** C9.  A tracker that is in the updated population of an iteration and
    is not retained by it (it was trimmed or dropped by the selection) is
    in no population of a later state of the run, in no list of a later
    iteration, hence never updated again, and its name is not a key of the
    returned mapping. *)
Theorem dropped_trackers_never_return (first_index : Z) self (onsets : list Q)
    s p1 (L1 : Locals Correction) (o : Z * Z) :
  reachable first_index self onsets s →
  playback.advance s.1 = Some p1 →
  call_body self p1 s.2 = Some L1 →
  o ∈ (name <$> hypothesis_trackers L1) →
  o ∉ (name <$> k_best_hs L1) →
  (∀ s2, engine_steps self (p1, k_best_hs L1) s2 →
     (o ∉ (name <$> s2.2))
     ∧ ∀ p3 (L3 : Locals Correction),
         playback.advance s2.1 = Some p3 → call_body self p3 s2.2 = Some L3 →
         (o ∉ (name <$> hypothesis_trackers L3))
         ∧ o ∉ (name <$> k_best_hs L3))
  ∧ (∀ m, call first_index self onsets = Some m → m !! o = None).
Proof.
  intros Hr Hadv Hb Hin Hout.
  pose proof (reachable_invariant _ _ _ _ Hr) as Hinv.
  destruct (population_step _ _ _ _ _ Hinv Hadv Hb) as [_ [_ _ Hnames _]].
  assert (o.2 < playback.discovered_index p1) as Hlt.
  { apply list_elem_of_fmap in Hin as (h & -> & Hh).
    eapply Forall_forall in Hnames; [|exact Hh]. apply Hnames. }
  assert (∀ s2, engine_steps self (p1, k_best_hs L1) s2 →
            (o ∉ (name <$> s2.2)) ∧ o.2 < playback.discovered_index s2.1) as Hgone.
  { intros s2 Hsteps. by apply (absent_steps _ _ _ _ Hsteps). }
  split.
  - intros s2 [Hout2 Hlt2]%Hgone. split; [done|].
    intros p3 L3 Hadv3 Hb3.
    destruct (absent_step _ _ _ _ _ _ Hout2 Hlt2 Hadv3 Hb3) as (? & ? & _). done.
  - intros m Hcall. unfold call in Hcall.
    assert (engine_step self s (p1, k_best_hs L1)) as Hstep by (by exists L1).
    pose proof (engine_steps_call_loop _ _ _ Hr) as E1.
    pose proof (engine_step_call_loop _ _ _ Hstep) as E2.
    simpl in E1, E2. rewrite E1, E2 in Hcall.
    destruct (call_loop_final self p1 (k_best_hs L1))
      as (p' & r & Hsteps & _ & Hloop).
    rewrite Hloop in Hcall. simpl in Hcall. inversion Hcall; subst m.
    apply py_dict_lookup_None. rewrite <- list_fmap_compose.
    by apply Hgone in Hsteps as [? _].
Qed.

(** C10.  The accessor [conf] raises on a tracker without confidences and
    on no other tracker.  In an iteration it is read by the selection only,
    on trackers that were updated in that iteration, whatever their
    histories were before: the selection after the updates never raises,
    every tracker of the updated and kept populations has a confidence, and
    no run raises. *)
Theorem confidence_is_read_after_update self :
  (∀ h, conf h = None ↔ confs h = [])
  ∧ (∀ h p ev co, is_Some (conf (update h p ev co)))
  ∧ (∀ p hts,
       is_Some (_split_k_best_hypotheses self
                  (_trim_similar_hypotheses self
                     ((λ h, update h p (eval_f self) (corr_f self)) <$> hts)
                     p).1))
  ∧ (∀ p hts (L : Locals Correction), call_body self p hts = Some L →
       Forall (λ h, is_Some (conf h)) (hypothesis_trackers L)
       ∧ Forall (λ h, is_Some (conf h)) (kept_hs L))
  ∧ (∀ first_index onsets, is_Some (call first_index self onsets)).
Proof.
  assert (∀ h, conf h = None ↔ confs h = []) as Hconf.
  { intros h. unfold conf. rewrite py_getitem_last, fmap_None.
    apply last_None. }
  assert (∀ p hts,
    Forall (λ h, confs h ≠ [])
      (_trim_similar_hypotheses self
         ((λ h, update h p (eval_f self) (corr_f self)) <$> hts) p).1) as Hkept.
  { intros p hts.
    pose proof (trim_greedy self p
      ((λ h, update h p (eval_f self) (corr_f self)) <$> hts)) as HG.
    apply greedy_sublist, sublist_subseteq in HG.
    apply Forall_forall. intros h Hh%HG. revert h Hh. apply Forall_forall.
    apply updated_has_confidence. }
  split; [done|]. split; [|split; [|split]].
  - intros h p ev co. rewrite update_conf. by eexists.
  - intros p hts. apply split_k_best_total, Hkept.
  - intros p hts L (_ & Hu & Ht & _)%call_body_inv.
    assert (∀ h, confs h ≠ [] → is_Some (conf h)) as Hsome.
    { intros h Hne. destruct (conf h) eqn:E; [by eexists|].
      by apply Hconf in E. }
    split.
    + rewrite Hu. eapply Forall_impl; [apply updated_has_confidence|]. done.
    + specialize (Hkept p (hts ++ n_hts L)). rewrite <- Hu, Ht in Hkept.
      eapply Forall_impl; [exact Hkept|]. done.
  - intros first_index onsets.
    destruct (call_final first_index self onsets) as (? & r & _ & _ & _ & ->).
    by eexists.
Qed.

End RunClaims.


(** * The claims on the sample run *)

(** The states of the sample run are states of a run. *)
Lemma sample_state_reachable (k : Z) (n : nat) :
  is_Some (run_steps n (sample_config k) (playback.new 0 sample_onsets, [])) →
  reachable 0 (sample_config k) sample_onsets (sample_state k n).
Proof.
  intros [s Hs]. unfold sample_state. rewrite Hs. simpl.
  by apply (run_steps_reachable n).
Defined.

(** C1 on the iteration of the sample run that discovers index 3: the
    trackers [(0, 2)] and [(1, 2)] are generated. *)
Lemma generation_by_period_range_witness :
  ∃ L, call_body (sample_config 2) (sample_cursor 3) (sample_state 2 2).2
         = Some L
       ∧ name <$> n_hts L = [(0, 2); (1, 2)]
       ∧ name <$> hypothesis_trackers L = [(0, 1); (0, 2); (1, 2)].
Proof.
  eexists. split; [vm_compute; reflexivity|].
  match goal with
  | |- context [n_hts ?L] =>
      destruct (generation_by_period_range (sample_config 2) (sample_cursor 3)
                  (sample_state 2 2).2 L) as (Hn & _ & _ & _ & Hall & _)
  end; [vm_compute; reflexivity|].
  split; [rewrite Hn | rewrite Hall]; vm_compute; reflexivity.
Defined.

(** C2 on the same iteration with [max_hypotheses = 1]: of the kept
    trackers [(0, 1)] (confidence 2) and [(0, 2)] (confidence 1) the first
    is retained. *)
Lemma selection_keeps_k_best_witness :
  ∃ L, call_body (sample_config 1) (sample_cursor 3) (sample_state 1 2).2
         = Some L
       ∧ name <$> kept_hs L = [(0, 1); (0, 2)]
       ∧ length (k_best_hs L) = 1%nat
       ∧ ∀ r d cr cd, r ∈ k_best_hs L → d ∈ other_hs L →
           conf r = Some cr → conf d = Some cd → ¬ (cr < cd)%Q.
Proof.
  eexists. split; [vm_compute; reflexivity|].
  split; [vm_compute; reflexivity|].
  match goal with
  | |- context [k_best_hs ?L] =>
      destruct (selection_keeps_k_best (sample_config 1) (kept_hs L)
                  (k_best_hs L) (other_hs L))
        as (Hlen & _ & _ & _ & _ & Hord & _)
  end; [vm_compute; discriminate | vm_compute; reflexivity |].
  split; [exact Hlen | exact Hord].
Defined.

(** C5 on the state of the sample run after three iterations. *)
Lemma tracker_invariants_hold_witness :
  reachable 0 (sample_config 2) sample_onsets (sample_state 2 3)
  ∧ name <$> (sample_state 2 3).2 = [(0, 1); (0, 2)]
  ∧ Forall tracker_invariant (sample_state 2 3).2.
Proof.
  assert (reachable 0 (sample_config 2) sample_onsets (sample_state 2 3))
    as Hr by (apply sample_state_reachable; vm_compute; eexists; reflexivity).
  split; [exact Hr|]. split; [vm_compute; reflexivity|].
  exact (proj1 (tracker_invariants_hold 0 (sample_config 2) sample_onsets
                  (sample_state 2 3) Hr)).
Defined.

(** C6 on the sample run. *)
Lemma returned_mapping_is_keyed_by_origin_witness :
  ∃ m, call 0 (sample_config 2) sample_onsets = Some m
       ∧ dom m = {[ (0, 1); (0, 2) ]}
       ∧ ∀ key h, m !! key = Some h → 0 ≤ key.1 < key.2 ∧ name h = key.
Proof.
  eexists. split; [vm_compute; reflexivity|].
  match goal with
  | |- context [dom ?m] =>
      destruct (returned_mapping_is_keyed_by_origin 0 (sample_config 2)
                  sample_onsets m) as (r & _ & _ & _ & Hkeys)
  end; [vm_compute; reflexivity|].
  split; [vm_compute; reflexivity | exact Hkeys].
Defined.

(** C7 on a single onset, with a cursor that reveals it by its first
    [advance]. *)
Lemma short_sequences_yield_nothing_witness :
  (length [7%Q] < 2)%nat
  ∧ call (-1) (sample_config 2) [7%Q] = Some ∅.
Proof.
  split; [simpl; lia|].
  apply (short_sequences_yield_nothing (-1) (sample_config 2) [7%Q]).
  simpl. lia.
Defined.

(** The two sorting algorithms are different functions: they order two
    entries that compare equal differently. *)
Example sorting_algorithms_differ :
  sorted [((1 # 1)%Q, 0%nat); ((2 # 2)%Q, 0%nat)]
    = [((1 # 1)%Q, 0%nat); ((2 # 2)%Q, 0%nat)]
  ∧ sorted_backwards [((1 # 1)%Q, 0%nat); ((2 # 2)%Q, 0%nat)]
    = [((2 # 2)%Q, 0%nat); ((1 # 1)%Q, 0%nat)].
Proof. split; reflexivity. Qed.

(** C8 on the sample run: the run that [call] computes, which sorts with
    [sorted], and the four iterations computed with [sorted_backwards] on
    the other way of writing the configuration return the same mapping. *)
Lemma runs_are_deterministic_witness :
  ∃ m1 s2,
    call 0 (sample_config 2) sample_onsets = Some m1
    ∧ size m1 = 2%nat
    ∧ run_steps_with sorted_backwards 4 (sample_config' 2)
        (playback.new 0 sample_onsets, []) = Some s2
    ∧ playback.advance s2.1 = None
    ∧ m1 = py_dict ((λ ht, (name ht, ht)) <$> s2.2).
Proof.
  assert (same_configuration (sample_config 2) (sample_config' 2)) as Hsame
    by (split; reflexivity).
  eexists. eexists.
  split; [vm_compute; reflexivity|]. split; [vm_compute; reflexivity|].
  split; [vm_compute; reflexivity|]. split; [vm_compute; reflexivity|].
  match goal with
  | |- ?m1 = py_dict (_ <$> ?s2.2) =>
      refine (proj1 (runs_are_deterministic 0 (sample_config 2)
                       (sample_config' 2) sample_onsets m1 _ Hsame _ _))
  end.
  - apply call_returns. vm_compute. reflexivity.
  - eexists. split; [|reflexivity].
    match goal with
    | |- runs_to _ _ _ ?r =>
        apply (run_steps_with_runs_to sorted_backwards 4 (sample_config' 2)
                 (playback.new 0 sample_onsets, [])
                 ({| playback.onset_times := sample_onsets;
                     playback.discovered_index := 4 |}, r)
                 sorted_backwards_sorting)
    end; vm_compute; reflexivity.
Defined.

(** C9 on the sample run with [max_hypotheses = 1]: the tracker [(0, 2)],
    dropped by the selection of the iteration that discovers index 3, is
    not in the returned mapping. *)
Lemma dropped_trackers_never_return_witness :
  ∃ L, call_body (sample_config 1) (sample_cursor 3) (sample_state 1 2).2
         = Some L
       ∧ (0, 2) ∈ (name <$> hypothesis_trackers L)
       ∧ ((0, 2) ∉ (name <$> k_best_hs L))
       ∧ ∀ m, call 0 (sample_config 1) sample_onsets = Some m →
              m !! (0, 2) = None.
Proof.
  eexists. split; [vm_compute; reflexivity|].
  match goal with
  | |- context [k_best_hs ?L] =>
      assert ((0, 2) ∈ (name <$> hypothesis_trackers L)) as Hin
        by (apply (bool_decide_unpack _); vm_compute; exact I);
      assert ((0, 2) ∉ (name <$> k_best_hs L)) as Hout
        by (apply (bool_decide_unpack _); vm_compute; exact I);
      destruct (dropped_trackers_never_return 0 (sample_config 1)
                  sample_onsets (sample_state 1 2) (sample_cursor 3) L (0, 2))
        as [_ Hmap]
  end; [| vm_compute; reflexivity | vm_compute; reflexivity
        | exact Hin | exact Hout |].
  - apply sample_state_reachable. vm_compute. eexists. reflexivity.
  - split; [exact Hin|]. split; [exact Hout | exact Hmap].
Defined.

(** C4 on a sample tracker: the recorded confidence is the phase after the
    correction (1), not the phase before it (0). *)
Example update_scores_after_correction :
  ∃ h, HypothesisTracker_init 0 1 sample_onsets = Some h
       ∧ (htuple h).1 = 0%Q
       ∧ conf (update h (sample_cursor 2) (eval_f (sample_config 2))
                 (corr_f (sample_config 2))) = Some 1%Q.
Proof. eexists. split; [vm_compute; reflexivity|]. split; reflexivity. Qed.

(** The slice of the selection with a negative [max_hypotheses] counts from
    the end, as Python slices do: [-1] retains all trackers but the least
    believable one. *)
Example negative_max_hypotheses :
  ∃ L, call_body (sample_config (-1)) (sample_cursor 3) (sample_state 2 2).2
         = Some L
       ∧ name <$> kept_hs L = [(0, 1); (0, 2)]
       ∧ name <$> k_best_hs L = [(0, 1)].
Proof. eexists. split; [vm_compute; reflexivity|]. split; reflexivity. Qed.


(** * Further properties of the code *)

(** ** Lists *)

Lemma filter_all {A} (P : A → Prop) `{!∀ x, Decision (P x)} (l : list A) :
  Forall P l → filter P l = l.
Proof.
  induction 1 as [|x l Hx _ IH]; [done|]. by rewrite filter_cons_True, IH.
Qed.

Lemma ForallOrdPairs_inv {A} (R : A → A → Prop) (x : A) (l : list A) :
  ForallOrdPairs R (x :: l) → Forall (R x) l ∧ ForallOrdPairs R l.
Proof. intros Hf. by inversion Hf; subst. Qed.

Lemma ForallOrdPairs_sublist {A} (R : A → A → Prop) (k l : list A) :
  sublist k l → ForallOrdPairs R l → ForallOrdPairs R k.
Proof.
  induction 1 as [|x k l Hs IH|x k l Hs IH]; [done| |].
  - intros [Hx Hl]%ForallOrdPairs_inv. constructor; [|by apply IH].
    apply Forall_forall. intros y Hy.
    eapply Forall_forall in Hx; [exact Hx|]. by eapply sublist_subseteq.
  - intros [_ Hl]%ForallOrdPairs_inv. by apply IH.
Qed.

Lemma StronglySorted_sublist {A} (R : relation A) (k l : list A) :
  sublist k l → StronglySorted R l → StronglySorted R k.
Proof.
  induction 1 as [|x k l Hs IH|x k l Hs IH]; [done| |].
  - intros [Hl Hx]%StronglySorted_inv. constructor; [by apply IH|].
    apply Forall_forall. intros y Hy.
    eapply Forall_forall in Hx; [exact Hx|]. by eapply sublist_subseteq.
  - intros [Hl _]%StronglySorted_inv. by apply IH.
Qed.

Lemma sublist_same_length {A} (k l : list A) :
  sublist k l → length k = length l → k = l.
Proof.
  induction 1 as [|x k l Hs IH|x k l Hs IH]; simpl; [done| |].
  - intros Hlen. f_equal. apply IH. lia.
  - intros Hlen. apply sublist_length in Hs. lia.
Qed.

Lemma filter_nothing {A} (P : A → Prop) `{!∀ x, Decision (P x)} (l : list A) :
  Forall (λ x, ¬ P x) l → filter P l = [].
Proof.
  induction 1 as [|x l Hx _ IH]; [done|]. by rewrite filter_cons_False.
Qed.

Lemma filter_nil_Forall {A} (P : A → Prop) `{!∀ x, Decision (P x)} (l : list A) :
  filter P l = [] → Forall (λ x, ¬ P x) l.
Proof.
  intros Hnil. apply Forall_forall. intros x Hx HP.
  assert (x ∈ filter P l) as Hin by (by apply list_elem_of_filter).
  rewrite Hnil in Hin. inversion Hin.
Qed.

(** A sublist keeps the order of its members. *)
Lemma sublist_ordered_pair {A} (k l l1 l2 l3 : list A) (a b : A) :
  sublist k l → k = l1 ++ a :: l2 ++ b :: l3 →
  ∃ l1' l2' l3', l = l1' ++ a :: l2' ++ b :: l3'.
Proof.
  intros Hs ->.
  apply sublist_app_l in Hs as (m1 & m2 & -> & _ & Hs).
  apply sublist_cons_l in Hs as (m3 & m4 & -> & Hs).
  apply sublist_app_l in Hs as (m5 & m6 & -> & _ & Hs).
  apply sublist_cons_l in Hs as (m7 & m8 & -> & _).
  exists (m1 ++ m3), (m5 ++ m7), m8. by rewrite <- !app_assoc.
Qed.

(** ** More on trimming *)

Section TrimmingMore.

Context {Correction : Type} `{!HypothesisCorrection Correction}.

Local Abbreviation HT := (HypothesisTracker Correction).
Local Abbreviation Config := (TactusHypothesisTracker Correction).

Implicit Types (self : Config) (p : playback.OngoingPlayback)
  (hts K : list HT) (T : list (HT * HT)).

Lemma dissimilar_not_similar self p (a b : HT) :
  dissimilar self p a b ↔ ¬ similar self p a b.
Proof.
  unfold dissimilar, similar. split; [apply Qle_not_lt | apply Qnot_lt_le].
Qed.

Lemma greedy_nothing_similar self p hts K T :
  greedy_partition self p hts K T →
  ForallOrdPairs (dissimilar self p) hts → K = hts ∧ T = [].
Proof.
  induction 1 as [|ht rest kept trimmed _ IH]; [done|].
  intros [Hht Hrest]%ForallOrdPairs_inv.
  assert (Forall (λ n, ¬ similar self p ht n) rest) as Hnone.
  { eapply Forall_impl; [exact Hht|]. intros n. apply dissimilar_not_similar. }
  rewrite (filter_all _ _ Hnone) in IH. destruct (IH Hrest) as [-> ->].
  by rewrite (filter_nothing (similar self p ht)).
Qed.

Lemma greedy_nothing_trimmed self p hts K T :
  greedy_partition self p hts K T → T = [] → K = hts.
Proof.
  induction 1 as [|ht rest kept trimmed _ IH]; [done|].
  intros [Hsim ->]%app_eq_nil. apply fmap_nil_inv in Hsim.
  apply filter_nil_Forall in Hsim.
  rewrite (filter_all _ _ Hsim) in IH. by rewrite IH.
Qed.

Lemma greedy_head self p hts K T :
  greedy_partition self p hts K T → head K = head hts.
Proof. by destruct 1. Qed.

Lemma greedy_lengths self p hts K T :
  greedy_partition self p hts K T → (length K + length T = length hts)%nat.
Proof.
  intros Hp%greedy_permutation. apply Permutation_length in Hp.
  by rewrite length_app, length_fmap in Hp.
Qed.

Lemma greedy_trimmed_after self p hts K T :
  greedy_partition self p hts K T →
  Forall (λ t, ∃ l1 l2 l3, hts = l1 ++ t.2 :: l2 ++ t.1 :: l3) T.
Proof.
  induction 1 as [|ht rest kept trimmed _ IH]; [constructor|].
  apply Forall_app. split.
  - apply Forall_fmap, Forall_forall.
    intros n [_ (l2 & l3 & ->)%list_elem_of_split]%list_elem_of_filter.
    by exists [], l2, l3.
  - eapply Forall_impl; [exact IH|]. intros [n rep] (l1 & l2 & l3 & Heq).
    destruct (sublist_ordered_pair _ rest _ _ _ _ _
                (sublist_filter _ rest) Heq) as (l1' & l2' & l3' & ->).
    by exists (ht :: l1'), l2', l3'.
Qed.

(** X1.  Trimming removes nothing exactly when no tracker of the population
    exceeds the similarity threshold against an earlier one; the population
    is then returned unchanged. *)
Theorem trimming_removes_nothing_iff self hts p :
  ((_trim_similar_hypotheses self hts p).2 = []
   ↔ ForallOrdPairs (dissimilar self p) hts)
  ∧ ((_trim_similar_hypotheses self hts p).2 = [] →
     (_trim_similar_hypotheses self hts p).1 = hts).
Proof.
  pose proof (trim_greedy self p hts) as HG.
  assert ((_trim_similar_hypotheses self hts p).2 = [] →
          (_trim_similar_hypotheses self hts p).1 = hts) as Hkept
    by (by eapply greedy_nothing_trimmed).
  split; [split|done].
  - intros Hnil. rewrite <- (Hkept Hnil). by eapply greedy_pairwise.
  - intros Hf. by destruct (greedy_nothing_similar _ _ _ _ _ HG Hf).
Qed.

(** X2.  Trimming is idempotent: trimming the kept trackers again, in the
    same playback state, keeps all of them and trims none. *)
Theorem trimming_is_idempotent self hts p :
  _trim_similar_hypotheses self (_trim_similar_hypotheses self hts p).1 p
    = ((_trim_similar_hypotheses self hts p).1, []).
Proof.
  pose proof (greedy_pairwise _ _ _ _ _ (trim_greedy self p hts)) as Hf.
  pose proof (trim_greedy self p (_trim_similar_hypotheses self hts p).1) as HG.
  destruct (greedy_nothing_similar _ _ _ _ _ HG Hf) as [HK HT].
  destruct (_trim_similar_hypotheses self
              (_trim_similar_hypotheses self hts p).1 p) as [K T].
  simpl in *. by rewrite HK, HT.
Qed.

(** X3.  The first tracker of the population is never trimmed, and every
    tracker is either kept or trimmed: the kept and the trimmed trackers
    are as many as the population. *)
Theorem trimming_keeps_the_first self hts p :
  head (_trim_similar_hypotheses self hts p).1 = head hts
  ∧ (length (_trim_similar_hypotheses self hts p).1
     + length (_trim_similar_hypotheses self hts p).2 = length hts)%nat.
Proof.
  pose proof (trim_greedy self p hts) as HG.
  split; [by eapply greedy_head | by eapply greedy_lengths].
Qed.

(** X4.  Every recorded pair [(n_ht, ht)] of trimmed tracker and
    representative comes from two positions of the population with the
    representative first. *)
Theorem trimmed_follow_their_representative self hts p :
  Forall (λ t, ∃ l1 l2 l3, hts = l1 ++ t.2 :: l2 ++ t.1 :: l3)
    (_trim_similar_hypotheses self hts p).2.
Proof. exact (greedy_trimmed_after _ _ _ _ _ (trim_greedy self p hts)). Qed.

End TrimmingMore.

(** ** More on selection *)

Lemma py_slice_to_take {A} (l : list A) (k : Z) :
  py_slice_to l k = take (slice_count (length l) k) l.
Proof.
  unfold py_slice_to, slice_count. destruct (Z.leb_spec 0 k) as [Hk|Hk]; [|done].
  destruct (Nat.le_gt_cases (length l) (Z.to_nat k)) as [Hle|Hgt].
  - by rewrite Nat.min_r, !take_ge by lia.
  - by rewrite Nat.min_l by lia.
Qed.

Lemma enumerate_snoc {A} (l : list A) (x : A) :
  enumerate (l ++ [x]) = enumerate l ++ [(length l, x)].
Proof.
  unfold enumerate. rewrite imap_app. simpl. by rewrite Nat.add_0_r.
Qed.

(** The members of a list at the positions below [m] are its first [m]
    members; the others are the rest. *)
Lemma filter_enumerate_lt {A} (m : nat) (l : list A) :
  (filter (λ x, (x.1 < m)%nat) (enumerate l)).*2 = take m l
  ∧ (filter (λ x, ¬ (x.1 < m)%nat) (enumerate l)).*2 = drop m l.
Proof.
  induction l as [|x l [IH1 IH2]] using rev_ind.
  - by rewrite take_nil, drop_nil.
  - rewrite enumerate_snoc, !filter_app, !fmap_app, IH1, IH2, take_app, drop_app.
    rewrite !filter_cons, !filter_nil. simpl.
    destruct (decide (length l < m)%nat) as [Hlt|Hge].
    + rewrite decide_False by lia. simpl.
      replace (m - length l)%nat with (S (m - length l - 1)) by lia.
      simpl. by rewrite take_nil, drop_nil.
    + rewrite decide_True by lia.
      replace (m - length l)%nat with 0%nat by lia. done.
Qed.

Lemma elem_of_take_seq (m n i : nat) :
  i ∈ take m (seq 0 n) ↔ (i < m `min` n)%nat.
Proof.
  rewrite elem_of_take. split.
  - intros (j & [-> Hj]%lookup_seq & Hm). lia.
  - intros Hi. exists i. split; [apply lookup_seq|]; lia.
Qed.

(** Entries with pairwise equal confidences are ranked in their order. *)
Lemma rank_ties (l : list (nat * Q)) :
  (∀ x y, x ∈ l → y ∈ l → (x.2 == y.2)%Q) → rank_by_confidence l = l.
Proof.
  induction l as [|x l IH]; [done|]. intros Heq. cbn [rank_by_confidence].
  rewrite IH by (intros y z Hy Hz; apply Heq; by right).
  destruct l as [|y l]; [done|]. cbn [rank_insert].
  assert (Qle_bool y.2 x.2 = true) as ->; [|done].
  apply Qle_bool_iff. rewrite (Heq y x); [apply Qle_refl | by right; left | by left].
Qed.

Section SelectionMore.

Context {Correction : Type} `{!HypothesisCorrection Correction}.

Local Abbreviation HT := (HypothesisTracker Correction).
Local Abbreviation Config := (TactusHypothesisTracker Correction).

Implicit Types (self : Config) (hts best other : list HT) (cs : list Q).

(** Selection for any [max_hypotheses]: the trackers at the positions of the
    entries of the ranking that the slice takes are retained. *)
Lemma split_k_best_positions self hts best other :
  _split_k_best_hypotheses self hts = Some (best, other) →
  ∃ cs, Forall2 (λ h c, conf h = Some c) hts cs
        ∧ best
          = (filter (λ x, x.1 ∈ (take (slice_count (length hts)
                                          (max_hypotheses self))
                                     (rank_by_confidence (enumerate cs))).*1)
               (enumerate hts)).*2
        ∧ other
          = (filter (λ x, x.1 ∉ (take (slice_count (length hts)
                                          (max_hypotheses self))
                                     (rank_by_confidence (enumerate cs))).*1)
               (enumerate hts)).*2.
Proof.
  unfold _split_k_best_hypotheses.
  destruct (mapM _ (enumerate hts)) as [info|] eqn:Hinfo; simpl;
    [|intros Heq; inversion Heq].
  intros Heq. inversion Heq; subst best other. clear Heq.
  apply hts_info_spec in Hinfo as (cs & Hcs & ->).
  exists cs. split; [done|].
  rewrite sorted_info_of by (rewrite enumerate_fst; apply seq_increasing).
  rewrite py_slice_to_fmap, <- list_fmap_compose, py_slice_to_take.
  rewrite (Permutation_length (rank_Permutation (enumerate cs))).
  rewrite length_enumerate, <- (Forall2_length _ _ _ Hcs).
  assert (∀ i : nat,
    i ∈ (list_to_set
           (snd ∘ info_of <$>
              take (slice_count (length hts) (max_hypotheses self))
                (rank_by_confidence (enumerate cs))) : gset nat)
    ↔ i ∈ (take (slice_count (length hts) (max_hypotheses self))
             (rank_by_confidence (enumerate cs))).*1) as Hiff.
  { intros i. by rewrite elem_of_list_to_set. }
  split; f_equal; apply list_filter_iff; intros [i h]; simpl;
    [apply Hiff | by rewrite Hiff].
Qed.

Lemma taken_positions (m : nat) cs :
  NoDup (take m (rank_by_confidence (enumerate cs))).*1
  ∧ length (take m (rank_by_confidence (enumerate cs))).*1
      = (m `min` length cs)%nat
  ∧ ∀ i, i ∈ (take m (rank_by_confidence (enumerate cs))).*1 →
         (i < length cs)%nat.
Proof.
  assert ((rank_by_confidence (enumerate cs)).*1 ≡ₚ seq 0 (length cs)) as Hp.
  { by rewrite rank_Permutation, enumerate_fst. }
  rewrite fmap_take. split; [|split].
  - eapply sublist_NoDup; [|apply sublist_take]. rewrite Hp. apply NoDup_seq.
  - by rewrite length_take, Hp, length_seq.
  - intros i Hi. apply (sublist_subseteq _ _ (sublist_take _ _)) in Hi.
    rewrite Hp in Hi. apply elem_of_seq in Hi. lia.
Qed.

Lemma split_k_best_count self hts best other :
  _split_k_best_hypotheses self hts = Some (best, other) →
  length best = slice_count (length hts) (max_hypotheses self).
Proof.
  intros (cs & Hcs & -> & _)%split_k_best_positions.
  set (m := slice_count (length hts) (max_hypotheses self)).
  destruct (taken_positions m cs) as (Hnd & Hlen & Hlt).
  assert ((m `min` length cs)%nat = m) as Hm.
  { rewrite <- (Forall2_length _ _ _ Hcs). unfold m, slice_count.
    destruct (Z.leb_spec 0 (max_hypotheses self)); lia. }
  rewrite length_fmap, <- (length_fmap fst).
  pose proof (filter_positions_fst
    (λ i, i ∈ (take m (rank_by_confidence (enumerate cs))).*1)
    (enumerate hts)) as ->.
  rewrite enumerate_fst, (Forall2_length _ _ _ Hcs).
  trans (length (take m (rank_by_confidence (enumerate cs))).*1);
    [|by rewrite Hlen].
  apply Permutation_length, NoDup_Permutation;
    [apply NoDup_filter, NoDup_seq | done |].
  intros i. rewrite list_elem_of_filter, elem_of_seq.
  split; [tauto|]. intros Hi. specialize (Hlt i Hi). split; [done|lia].
Qed.

Lemma split_k_best_order_any self hts best other (r d : HT) (cr cd : Q) :
  _split_k_best_hypotheses self hts = Some (best, other) →
  r ∈ best → d ∈ other → conf r = Some cr → conf d = Some cd →
  (cd <= cr)%Q.
Proof.
  intros (cs & Hcs & -> & ->)%split_k_best_positions.
  intros (i & Hi & Hin)%elem_of_filter_enumerate
         (j & Hj & Hout)%elem_of_filter_enumerate Hr Hd.
  simpl in Hin, Hout.
  destruct (Forall2_lookup_l _ _ _ i r Hcs Hi) as (cr' & Hci & Hcr).
  destruct (Forall2_lookup_l _ _ _ j d Hcs Hj) as (cd' & Hcj & Hcd).
  assert (cr' = cr) as -> by congruence.
  assert (cd' = cd) as -> by congruence.
  set (R := rank_by_confidence (enumerate cs)) in *.
  set (k := slice_count (length hts) (max_hypotheses self)) in *.
  assert (∀ n c, (n, c) ∈ R ↔ cs !! n = Some c) as HR.
  { intros n c. unfold R. by rewrite rank_Permutation, elem_of_enumerate. }
  apply list_elem_of_fmap in Hin as ([i' c] & Heq & Hin). simpl in Heq. subst i'.
  assert (c = cr) as ->.
  { apply (sublist_subseteq _ _ (sublist_take _ _)), HR in Hin. congruence. }
  assert ((j, cd) ∈ drop k R) as Hdrop.
  { apply HR in Hcj. rewrite <- (take_drop k R) in Hcj.
    apply elem_of_app in Hcj as [Htake|Hdrop]; [|done].
    exfalso. apply Hout, list_elem_of_fmap. by exists (j, cd). }
  pose proof (rank_sorted (enumerate cs)) as Hs. fold R in Hs.
  rewrite <- (take_drop k R) in Hs.
  exact (StronglySorted_app_1_elem_of _ _ _ _ _ Hs Hin Hdrop).
Qed.

Lemma conf_Some_confs (h : HT) (c : Q) : conf h = Some c → confs h ≠ [].
Proof. unfold conf. intros Hc Hnil. by rewrite Hnil in Hc. Qed.

Lemma split_k_best_room self hts best other :
  Z.of_nat (length hts) ≤ max_hypotheses self →
  _split_k_best_hypotheses self hts = Some (best, other) →
  best = hts ∧ other = [].
Proof.
  intros Hk Hs.
  pose proof (split_k_best_count _ _ _ _ Hs) as Hlen.
  destruct (split_k_best_sublist _ _ _ _ Hs) as (Hb & _ & Hp).
  assert (length best = length hts) as Hn.
  { rewrite Hlen. unfold slice_count.
    destruct (Z.leb_spec 0 (max_hypotheses self)); lia. }
  split; [by apply sublist_same_length|].
  apply Permutation_length in Hp. rewrite length_app in Hp.
  destruct other; [done | simpl in Hp; lia].
Qed.

(** X5.  When [max_hypotheses] is at least the size of the population, the
    selection retains every tracker, in order, and drops none. *)
Theorem selection_with_room_keeps_all self hts best other :
  Z.of_nat (length hts) ≤ max_hypotheses self →
  _split_k_best_hypotheses self hts = Some (best, other) →
  best = hts ∧ other = [].
Proof. apply split_k_best_room. Qed.

(** X6.  Selection is idempotent for a non-negative [max_hypotheses]:
    selecting among the retained trackers again retains all of them. *)
Theorem selection_is_idempotent self hts best other :
  0 ≤ max_hypotheses self →
  _split_k_best_hypotheses self hts = Some (best, other) →
  _split_k_best_hypotheses self best = Some (best, []).
Proof.
  intros Hk Hs.
  destruct (split_k_best_positions _ _ _ _ Hs) as (cs & Hcs & _).
  destruct (split_k_best_sublist _ _ _ _ Hs) as (Hsub & _).
  destruct (split_k_best_total self best) as [[b2 o2] Hs2].
  { apply Forall_forall. intros h Hh%(sublist_subseteq _ _ Hsub).
    apply list_elem_of_lookup in Hh as (i & Hi).
    destruct (Forall2_lookup_l _ _ _ i h Hcs Hi) as (c & _ & Hc).
    by eapply conf_Some_confs. }
  rewrite Hs2. f_equal.
  destruct (split_k_best_room self best b2 o2) as [-> ->]; [|done|done].
  rewrite (split_k_best_count _ _ _ _ Hs). unfold slice_count.
  destruct (Z.leb_spec 0 (max_hypotheses self)); lia.
Qed.

(** X7.  For every [max_hypotheses], negative ones included, the selection
    retains as many trackers as the slice [[:max_hypotheses]] has entries: a
    negative value [-j] drops the [j] least believable trackers.  No
    retained tracker has a latest confidence below that of a dropped one. *)
Theorem selection_follows_the_slice self hts best other :
  _split_k_best_hypotheses self hts = Some (best, other) →
  length best = slice_count (length hts) (max_hypotheses self)
  ∧ (max_hypotheses self < 0 →
     length best = Z.to_nat (Z.of_nat (length hts) + max_hypotheses self))
  ∧ (∀ r d cr cd, r ∈ best → d ∈ other →
       conf r = Some cr → conf d = Some cd → (cd <= cr)%Q).
Proof.
  intros Hs. split; [by apply (split_k_best_count self hts best other)|].
  split.
  - intros Hk. rewrite (split_k_best_count _ _ _ _ Hs). unfold slice_count.
    by destruct (Z.leb_spec 0 (max_hypotheses self)); [lia|].
  - intros r d cr cd. by apply (split_k_best_order_any self hts best other).
Qed.

(** X8.  When all trackers have the same latest confidence, the selection
    retains the first [max_hypotheses] trackers of the population, the
    oldest ones, and drops the others. *)
Theorem selection_of_ties_keeps_the_oldest self hts best other :
  0 ≤ max_hypotheses self →
  _split_k_best_hypotheses self hts = Some (best, other) →
  (∀ a b ca cb, a ∈ hts → b ∈ hts →
     conf a = Some ca → conf b = Some cb → (ca == cb)%Q) →
  best = take (Z.to_nat (max_hypotheses self)) hts
  ∧ other = drop (Z.to_nat (max_hypotheses self)) hts.
Proof.
  intros Hk (cs & Hcs & -> & ->)%split_k_best_positions Hties.
  set (m := slice_count (length hts) (max_hypotheses self)).
  assert (m = (Z.to_nat (max_hypotheses self) `min` length hts)%nat) as Hm.
  { unfold m, slice_count. by destruct (Z.leb_spec 0 (max_hypotheses self)); [|lia]. }
  rewrite rank_ties.
  2:{ intros [i c] [j d] Hi%elem_of_enumerate Hj%elem_of_enumerate. simpl.
      destruct (Forall2_lookup_r _ _ _ i c Hcs Hi) as (a & Ha & Hca).
      destruct (Forall2_lookup_r _ _ _ j d Hcs Hj) as (b & Hb & Hcb).
      eapply (Hties a b); [by eapply list_elem_of_lookup_2..|done|done]. }
  rewrite fmap_take, enumerate_fst, <- (Forall2_length _ _ _ Hcs).
  destruct (filter_enumerate_lt m hts) as [Htake Hdrop].
  assert (∀ i : nat, i ∈ take m (seq 0 (length hts)) ↔ (i < m)%nat) as Hiff.
  { intros i. rewrite elem_of_take_seq. lia. }
  assert (take m hts = take (Z.to_nat (max_hypotheses self)) hts
          ∧ drop m hts = drop (Z.to_nat (max_hypotheses self)) hts)
    as [<- <-].
  { rewrite Hm.
    destruct (Nat.le_gt_cases (length hts) (Z.to_nat (max_hypotheses self))).
    - rewrite Nat.min_r by lia. by rewrite !take_ge, !drop_ge by lia.
    - by rewrite Nat.min_l by lia. }
  rewrite <- Htake, <- Hdrop.
  split; f_equal; apply list_filter_iff; intros [i h]; simpl;
    [apply Hiff | by rewrite Hiff].
Qed.

(** X9.  When [max_hypotheses] is positive and the population is not empty,
    a tracker of greatest latest confidence is retained. *)
Theorem selection_retains_a_best self hts best other :
  1 ≤ max_hypotheses self → hts ≠ [] →
  _split_k_best_hypotheses self hts = Some (best, other) →
  ∃ r cr, r ∈ best ∧ conf r = Some cr
          ∧ ∀ h c, h ∈ hts → conf h = Some c → (c <= cr)%Q.
Proof.
  intros Hk Hne (cs & Hcs & -> & _)%split_k_best_positions.
  set (m := slice_count (length hts) (max_hypotheses self)).
  assert (0 < m)%nat as Hm.
  { unfold m, slice_count. destruct (Z.leb_spec 0 (max_hypotheses self)); [|lia].
    destruct hts; [done | simpl; lia]. }
  pose proof (rank_Permutation (enumerate cs)) as Hperm.
  pose proof (rank_sorted (enumerate cs)) as Hsorted.
  destruct (rank_by_confidence (enumerate cs)) as [|[i c] R] eqn:HR.
  { apply Permutation_length in Hperm. rewrite length_enumerate in Hperm.
    rewrite <- (Forall2_length _ _ _ Hcs) in Hperm. by destruct hts. }
  assert (cs !! i = Some c) as Hi.
  { apply elem_of_enumerate. rewrite <- Hperm. by left. }
  destruct (Forall2_lookup_r _ _ _ i c Hcs Hi) as (r & Hr & Hcr).
  exists r, c. split; [|split; [done|]].
  - apply elem_of_filter_enumerate. exists i. split; [done|]. simpl.
    destruct m; [lia|]. simpl. by left.
  - intros h c' (j & Hj)%list_elem_of_lookup Hc'.
    destruct (Forall2_lookup_l _ _ _ j h Hcs Hj) as (c2 & Hcj & Hc2).
    assert (c2 = c') as -> by congruence.
    apply elem_of_enumerate in Hcj. rewrite <- Hperm in Hcj.
    apply StronglySorted_inv in Hsorted as [_ Hall].
    apply elem_of_cons in Hcj as [Heq|Hin].
    + inversion Heq. apply Qle_refl.
    + eapply Forall_forall in Hall; [|exact Hin]. exact Hall.
Qed.

(** X10.  The tuples [(-conf, idx)] that the selection sorts are pairwise
    different, so they have a single ascending arrangement: any sorting of
    them, stable or not, returns the list that [sorted] returns. *)
Theorem selection_sort_is_unambiguous hts (info l' : list (Q * nat)) :
  mapM (λ x : nat * HT, c ← conf x.2; Some ((-1 * c)%Q, x.1)) (enumerate hts)
    = Some info →
  l' ≡ₚ info →
  StronglySorted (λ a b, tuple_lt b a = false) l' →
  l' = sorted info.
Proof.
  intros (cs & _ & ->)%hts_info_spec. apply sorted_unique.
Qed.

End SelectionMore.

(** ** More on generation *)

Section GenerationMore.

Context {Correction : Type} `{!HypothesisCorrection Correction}.

Local Abbreviation HT := (HypothesisTracker Correction).
Local Abbreviation Config := (TactusHypothesisTracker Correction).

Implicit Types (self : Config) (p : playback.OngoingPlayback).

Lemma generate_loop_inits self p (e : Z) (ks : list Z) (l : list HT) :
  generate_loop self p e ks = Some l →
  Forall (λ h, ∃ k, k ∈ ks
                    ∧ delta_in_range self (playback.onset_times p) e k
                    ∧ HypothesisTracker_init k e (playback.onset_times p)
                      = Some h) l.
Proof.
  revert l. induction ks as [|k ks IH]; intros l; simpl.
  - intros Heq. inversion Heq. constructor.
  - destruct (py_getitem (playback.onset_times p) e) as [a|] eqn:Ha; simpl;
      [|intros Heq; inversion Heq].
    destruct (py_getitem (playback.onset_times p) k) as [b|] eqn:Hb; simpl;
      [|intros Heq; inversion Heq].
    assert (∀ l', generate_loop self p e ks = Some l' →
      Forall (λ h, ∃ k', k' ∈ k :: ks
                ∧ delta_in_range self (playback.onset_times p) e k'
                ∧ HypothesisTracker_init k' e (playback.onset_times p)
                  = Some h) l') as IH'.
    { intros l' Hl'. eapply Forall_impl; [exact (IH l' Hl')|].
      intros h (k' & Hk' & ?). exists k'. split; [by right | done]. }
    destruct (Qle_bool (min_delta self) (a - b)
              && Qle_bool (a - b) (max_delta self)) eqn:Hc; simpl; [|apply IH'].
    destruct (HypothesisTracker_init k e (playback.onset_times p))
      as [h|] eqn:Hh; simpl; [|intros Heq; inversion Heq].
    destruct (generate_loop self p e ks) as [rest|]; simpl;
      [|intros Heq; inversion Heq].
    intros Heq. inversion Heq; subst. constructor; [|by apply IH'].
    exists k. split; [by left|]. split; [|done].
    unfold delta_in_range. by rewrite Ha, Hb, Hc.
Qed.

(** X11.  The generation raises [IndexError] exactly when [end_index] is
    positive and not below the number of onsets: it then reads
    [onset_times[end_index]] for the first candidate.  With no candidate
    ([end_index <= 0]) nothing is read. *)
Theorem generation_raises_iff self p :
  _generate_new_hypothesis self p = None
  ↔ 0 < playback.discovered_index p - 1
    ∧ Z.of_nat (length (playback.onset_times p))
      ≤ playback.discovered_index p - 1.
Proof.
  split.
  - intros Hnone.
    destruct (Z.le_gt_cases (playback.discovered_index p - 1) 0) as [Hle|Hgt].
    { rewrite generate_nonpos in Hnone by done. inversion Hnone. }
    split; [lia|].
    destruct (Z.le_gt_cases (Z.of_nat (length (playback.onset_times p)))
                (playback.discovered_index p - 1)) as [?|Hlt]; [done|].
    destruct (generate_total self p) as [l Hl]; [lia|]. congruence.
  - intros [Hpos Hlen]. unfold _generate_new_hypothesis, xrange.
    destruct (Z.to_nat (playback.discovered_index p - 1)) as [|m] eqn:Hm;
      [lia|].
    simpl. rewrite (py_getitem_nonneg _ (playback.discovered_index p - 1))
      by lia.
    rewrite (proj2 (lookup_ge_None _ _)) by lia. done.
Qed.

End GenerationMore.

(** ** The life of a tracker *)

Lemma seqZ_snoc (m n : Z) : 0 ≤ n → seqZ m (n + 1) = seqZ m n ++ [m + n].
Proof.
  intros Hn. rewrite seqZ_app by lia.
  rewrite (seqZ_cons (m + n) 1) by lia.
  by rewrite (seqZ_nil (Z.succ (m + n)) (Z.pred 1)) by lia.
Qed.

Section Life.

Context {Correction : Type} `{!HypothesisCorrection Correction}.

Local Abbreviation HT := (HypothesisTracker Correction).
Local Abbreviation Config := (TactusHypothesisTracker Correction).

Implicit Types (self : Config) (p : playback.OngoingPlayback)
  (hts : list HT) (h : HT) (s : playback.OngoingPlayback * list HT)
  (onsets : list Q).

Lemma replay_snoc self onsets h (ds : list Z) (d : Z) :
  replay self onsets h (ds ++ [d])
    = update (replay self onsets h ds) (cursor_at onsets d)
        (eval_f self) (corr_f self).
Proof. unfold replay. by rewrite foldl_snoc. Qed.

Lemma replay_fields self onsets h (ds : list Z) :
  name (replay self onsets h ds) = name h
  ∧ beta (replay self onsets h ds) = beta h
  ∧ onset_times (replay self onsets h ds) = onset_times h
  ∧ (corr (replay self onsets h ds)).*1 = (corr h).*1 ++ ds
  ∧ (confs (replay self onsets h ds)).*1 = (confs h).*1 ++ ds.
Proof.
  induction ds as [|d ds (H1 & H2 & H3 & H4 & H5)] using rev_ind.
  - by rewrite !app_nil_r.
  - rewrite replay_snoc, update_corr, update_confs, !fmap_app, H4, H5.
    by rewrite <- !app_assoc.
Qed.

Lemma lives_since_fresh self p (e k : Z) h :
  playback.discovered_index p = e + 1 →
  delta_in_range self (playback.onset_times p) e k →
  HypothesisTracker_init k e (playback.onset_times p) = Some h →
  lives_since self (playback.onset_times p) (playback.discovered_index p)
    (update h p (eval_f self) (corr_f self)).
Proof.
  intros Hd Hr Hh. pose proof Hh as (Hn & _)%HypothesisTracker_init_Some.
  exists h. rewrite update_name, Hn. simpl.
  split; [done|]. split; [lia|]. split; [done|].
  replace (playback.discovered_index p - e) with (0 + 1) by lia.
  rewrite seqZ_snoc, seqZ_nil by lia. simpl.
  unfold replay, cursor_at. simpl. rewrite Z.add_0_r, <- Hd. by destruct p.
Qed.

Lemma lives_since_update self p (d : Z) h :
  playback.discovered_index p = d + 1 →
  lives_since self (playback.onset_times p) d h →
  lives_since self (playback.onset_times p) (playback.discovered_index p)
    (update h p (eval_f self) (corr_f self)).
Proof.
  intros Hd (h0 & Hh0 & Hlt & Hr & Hh). exists h0. rewrite update_name.
  split; [done|]. split; [lia|]. split; [done|].
  replace (playback.discovered_index p - (name h).2)
    with (d - (name h).2 + 1) by lia.
  rewrite seqZ_snoc, replay_snoc, <- Hh by lia.
  replace ((name h).2 + 1 + (d - (name h).2)) with (d + 1) by lia.
  unfold cursor_at. rewrite <- Hd. by destruct p.
Qed.

(** Along a run the cursor reads the same onsets and every tracker of the
    population is alive since its generation. *)
Lemma life_step self p p' hts (L : Locals Correction) :
  Forall (lives_since self (playback.onset_times p)
            (playback.discovered_index p)) hts →
  playback.advance p = Some p' →
  call_body self p' hts = Some L →
  playback.onset_times p' = playback.onset_times p
  ∧ Forall (lives_since self (playback.onset_times p')
              (playback.discovered_index p')) (hypothesis_trackers L).
Proof.
  intros Hold [_ ->]%advance_Some Hb.
  destruct (call_body_inv _ _ _ _ Hb) as (Hg & Hu & _).
  split; [done|]. rewrite Hu. simpl in *.
  apply Forall_fmap, Forall_app. split.
  - eapply Forall_impl; [exact Hold|]. intros h Hh.
    by apply (lives_since_update self
                {| playback.onset_times := playback.onset_times p;
                   playback.discovered_index := playback.discovered_index p + 1 |}
                (playback.discovered_index p)).
  - apply generate_loop_inits in Hg. simpl in Hg.
    eapply Forall_impl; [exact Hg|]. intros h (k & _ & Hr & Hh).
    apply (lives_since_fresh self
             {| playback.onset_times := playback.onset_times p;
                playback.discovered_index := playback.discovered_index p + 1 |}
             (playback.discovered_index p + 1 - 1) k); [simpl; lia|done..].
Qed.

Lemma engine_steps_life self s s' :
  engine_steps self s s' →
  Forall (lives_since self (playback.onset_times s.1)
            (playback.discovered_index s.1)) s.2 →
  playback.onset_times s'.1 = playback.onset_times s.1
  ∧ Forall (lives_since self (playback.onset_times s'.1)
              (playback.discovered_index s'.1)) s'.2.
Proof.
  induction 1 as [|s1 s2 s3 Hstep _ IH]; [done|].
  intros Hold. destruct Hstep as (L & Hadv & Hb & Heq).
  destruct (life_step _ _ _ _ _ Hold Hadv Hb) as [Hon Hnew].
  destruct IH as [Hon' Hall].
  - rewrite Heq.
    destruct (call_body_sublists _ _ _ _ Hb) as (Hk & Hbest & _).
    apply Forall_forall. intros h Hh. eapply Forall_forall in Hnew; [exact Hnew|].
    eapply sublist_subseteq; [|exact Hh]. by etrans.
  - split; [congruence|]. by rewrite Hon' in *.
Qed.

Lemma reachable_life (first_index : Z) self onsets s :
  reachable first_index self onsets s →
  playback.onset_times s.1 = onsets
  ∧ Forall (lives_since self onsets (playback.discovered_index s.1)) s.2.
Proof.
  intros Hr. destruct (engine_steps_life _ _ _ Hr) as [Hon Hall].
  { constructor. }
  simpl in Hon. split; [done|]. by rewrite Hon in Hall.
Qed.

Lemma lives_since_history self onsets (d : Z) h :
  lives_since self onsets d h →
  (corr h).*1 = seqZ ((name h).2 + 1) (d - (name h).2)
  ∧ (confs h).*1 = seqZ ((name h).2 + 1) (d - (name h).2)
  ∧ ∃ c, conf h = Some c ∧ last (confs h) = Some (d, c).
Proof.
  intros (h0 & Hh0 & Hlt & _ & Hh).
  apply HypothesisTracker_init_Some in Hh0 as (_ & (Hc & Hf & _) & _).
  destruct (replay_fields self onsets h0
              (seqZ ((name h).2 + 1) (d - (name h).2)))
    as (_ & _ & _ & Hcorr & Hconfs).
  rewrite <- Hh, Hc in Hcorr. rewrite <- Hh, Hf in Hconfs. simpl in *.
  split; [done|]. split; [done|].
  assert (last (confs h).*1 = Some d) as Hlast.
  { rewrite Hconfs.
    replace (d - (name h).2) with (d - (name h).2 - 1 + 1) by lia.
    rewrite seqZ_snoc, last_snoc by lia. f_equal. lia. }
  rewrite fmap_last in Hlast.
  destruct (last (confs h)) as [[d' c]|] eqn:Hl; [|done].
  simpl in Hlast. inversion Hlast; subst d'.
  exists c. split; [|done]. unfold conf. by rewrite py_getitem_last, Hl.
Qed.

End Life.

Lemma py_dict_size `{Countable K} {V} (l : list (K * V)) :
  NoDup l.*1 → size (py_dict l) = length l.
Proof.
  induction l as [|[k v] l IH] using rev_ind; intros Hnd; [done|].
  rewrite fmap_app in Hnd. apply NoDup_app in Hnd as (Hnd & Hfresh & _).
  rewrite py_dict_snoc, length_app, map_size_insert_None, IH by
    (try done; apply py_dict_lookup_None; intros Hin;
     apply (Hfresh k Hin); simpl; by left).
  simpl. lia.
Qed.

(** ** More on runs *)

Section RunsMore.

Context {Correction : Type} `{!HypothesisCorrection Correction}.

Local Abbreviation HT := (HypothesisTracker Correction).
Local Abbreviation Config := (TactusHypothesisTracker Correction).

Implicit Types (self : Config) (p : playback.OngoingPlayback)
  (hts : list HT) (h : HT) (s : playback.OngoingPlayback * list HT)
  (onsets : list Q).

(** The mapping returned by a run and the population it is built from. *)
Lemma call_result (first_index : Z) self onsets (m : gmap (Z * Z) HT) :
  call first_index self onsets = Some m →
  ∃ p r, reachable first_index self onsets (p, r)
         ∧ playback.advance p = None
         ∧ size m = length r
         ∧ ∀ key h, m !! key = Some h ↔ h ∈ r ∧ name h = key.
Proof.
  intros Hcall.
  destruct (call_final first_index self onsets) as (p & r & Hr & Hend & _ & Hm).
  rewrite Hm in Hcall. inversion Hcall; subst m. clear Hcall.
  exists p, r. split; [done|]. split; [done|].
  pose proof (reachable_invariant _ _ _ _ Hr) as [_ _ _ Hnd]. simpl in Hnd.
  assert (NoDup ((λ ht : HT, (name ht, ht)) <$> r).*1) as Hnd'
    by (by rewrite <- list_fmap_compose).
  split; [by rewrite py_dict_size, length_fmap|].
  intros key h. rewrite py_dict_lookup_Some by done.
  rewrite list_elem_of_fmap. split.
  - intros (h' & Heq & Hh'). inversion Heq; subst. done.
  - intros [Hh <-]. by exists h.
Qed.

(** A state of a run is its first state or the result of an iteration. *)
Lemma reachable_cases (first_index : Z) self onsets s :
  reachable first_index self onsets s →
  s = (playback.new first_index onsets, [])
  ∨ ∃ s0 (L : Locals Correction),
      reachable first_index self onsets s0
      ∧ playback.advance s0.1 = Some s.1
      ∧ call_body self s.1 s0.2 = Some L
      ∧ s.2 = k_best_hs L.
Proof.
  intros [<-|(s0 & Hr & L & Hadv & Hb & Heq)]%rtc_inv_r; [by left|].
  right. by exists s0, L.
Qed.

Lemma generation_order_step self p p' hts (L : Locals Correction) :
  population_invariant p hts →
  StronglySorted generated_before (name <$> hts) →
  playback.advance p = Some p' →
  call_body self p' hts = Some L →
  StronglySorted generated_before (name <$> hypothesis_trackers L).
Proof.
  intros [_ _ Hnames _] Hsorted [_ ->]%advance_Some Hb.
  destruct (call_body_inv _ _ _ _ Hb) as (Hg & Hu & _). simpl in *.
  pose proof Hg as (Hnew & _)%generate_names.
  apply generate_loop_Some in Hg as [Hn _]. simpl in *.
  rewrite Hu, names_update, fmap_app. apply StronglySorted_app_2; [|done|].
  - intros n1 n2 (h1 & -> & Hh1)%list_elem_of_fmap (h2 & -> & Hh2)%list_elem_of_fmap.
    eapply Forall_forall in Hnames; [|exact Hh1].
    eapply Forall_forall in Hnew; [|exact Hh2].
    left. destruct Hnames as [_ Hlt]. destruct Hnew as [He _]. lia.
  - rewrite Hn. apply (StronglySorted_fmap _ Z.lt).
    + intros k k' Hlt. right. done.
    + apply StronglySorted_filter, xrange_increasing.
Qed.

Lemma engine_steps_generation_order self s s' :
  engine_steps self s s' →
  population_invariant s.1 s.2 →
  StronglySorted generated_before (name <$> s.2) →
  StronglySorted generated_before (name <$> s'.2).
Proof.
  induction 1 as [|s1 s2 s3 Hstep _ IH]; [done|].
  intros Hinv Hsorted.
  apply IH; [by apply (engine_step_invariant self s1)|].
  destruct Hstep as (L & Hadv & Hb & ->).
  pose proof (generation_order_step _ _ _ _ _ Hinv Hsorted Hadv Hb) as Hnew.
  destruct (call_body_sublists _ _ _ _ Hb) as (Hk & Hbest & _).
  eapply StronglySorted_sublist; [|exact Hnew].
  apply fmap_sublist. by etrans.
Qed.

(** X12.  In every state of a run each tracker of the population is the
    tracker its constructor builds for its origin, updated once at every
    discovered index since its generation and by nothing else: its state
    does not depend on the other trackers, on [sim_f] or on the limits of
    the population.  [beta], [origin_onsets] and the onsets it refers to
    are those of its construction. *)
Theorem trackers_evolve_independently (first_index : Z) self onsets s :
  reachable first_index self onsets s →
  playback.onset_times s.1 = onsets
  ∧ Forall (λ h,
      ∃ h0, HypothesisTracker_init (name h).1 (name h).2 onsets = Some h0
            ∧ h = replay self onsets h0
                    (seqZ ((name h).2 + 1)
                       (playback.discovered_index s.1 - (name h).2))
            ∧ beta h = beta h0
            ∧ origin_onsets h = origin_onsets h0
            ∧ onset_times h = onsets) s.2.
Proof.
  intros [Hon Hall]%reachable_life. split; [done|].
  eapply Forall_impl; [exact Hall|]. intros h (h0 & Hh0 & _ & _ & Hh).
  exists h0. split; [done|]. split; [done|].
  destruct (replay_fields self onsets h0
              (seqZ ((name h).2 + 1)
                 (playback.discovered_index s.1 - (name h).2)))
    as (_ & Hbeta & Hot & _).
  rewrite <- Hh in Hbeta, Hot.
  apply HypothesisTracker_init_Some in Hh0 as (_ & (_ & _ & _ & Hons) & _).
  split; [done|]. split; [|congruence].
  unfold origin_onsets. by rewrite Hbeta.
Qed.

(** X13.  In every state of a run the histories of a tracker named
    [(k, end_index)] hold exactly one entry for each discovered index from
    [end_index + 1] to the current one: no iteration skips a live tracker,
    and a tracker generated at an iteration is updated in it. *)
Theorem histories_record_every_step (first_index : Z) self onsets s :
  reachable first_index self onsets s →
  Forall (λ h,
    (corr h).*1 = seqZ ((name h).2 + 1)
                    (playback.discovered_index s.1 - (name h).2)
    ∧ (confs h).*1 = seqZ ((name h).2 + 1)
                       (playback.discovered_index s.1 - (name h).2)
    ∧ Z.of_nat (length (confs h))
        = playback.discovered_index s.1 - (name h).2
    ∧ 0 < playback.discovered_index s.1 - (name h).2) s.2.
Proof.
  intros [_ Hall]%reachable_life.
  eapply Forall_impl; [exact Hall|]. intros h Hlive.
  pose proof Hlive as (_ & _ & Hlt & _).
  destruct (lives_since_history _ _ _ _ Hlive) as (Hc & Hf & _).
  split; [done|]. split; [done|]. split; [|lia].
  rewrite <- (length_fmap fst), Hf, length_seqZ. lia.
Qed.

(** X14.  Every tracker of the returned mapping has a latest confidence,
    so reading [conf] of a returned tracker does not raise, and all
    returned trackers were scored last at the same discovered index. *)
Theorem returned_trackers_have_a_confidence (first_index : Z) self onsets
    (m : gmap (Z * Z) HT) :
  call first_index self onsets = Some m →
  ∃ d, ∀ key h, m !! key = Some h →
         ∃ c, conf h = Some c ∧ last (confs h) = Some (d, c).
Proof.
  intros (p & r & Hr & _ & _ & Hlook)%call_result.
  apply reachable_life in Hr as [_ Hall]. simpl in Hall.
  exists (playback.discovered_index p). intros key h [Hh _]%Hlook.
  eapply Forall_forall in Hall; [|exact Hh].
  by destruct (lives_since_history _ _ _ _ Hall) as (_ & _ & Hc).
Qed.

(** X15.  Every key [(k, end_index)] of the returned mapping indexes two
    onsets whose distance [onset_times[end_index] - onset_times[k]] lies
    between [min_delta] and [max_delta]. *)
Theorem returned_keys_respect_the_period_range (first_index : Z) self onsets
    (m : gmap (Z * Z) HT) (k e : Z) h :
  call first_index self onsets = Some m →
  m !! (k, e) = Some h →
  ∃ a b, py_getitem onsets e = Some a ∧ py_getitem onsets k = Some b
         ∧ (min_delta self <= a - b)%Q ∧ (a - b <= max_delta self)%Q.
Proof.
  intros (p & r & Hr & _ & _ & Hlook)%call_result [Hh Hname]%Hlook.
  apply reachable_life in Hr as [_ Hall]. simpl in Hall.
  eapply Forall_forall in Hall; [|exact Hh].
  destruct Hall as (_ & _ & _ & Hrange & _). rewrite Hname in Hrange.
  by apply delta_in_range_bounds.
Qed.

(** X16.  The assumption of [_trim_similar_hypotheses] holds in every run:
    the population of every state, and the population handed to the
    trimming in every iteration, is sorted by when its trackers were
    generated (by end index, then by start index). *)
Theorem populations_are_in_generation_order (first_index : Z) self onsets s :
  reachable first_index self onsets s →
  StronglySorted generated_before (name <$> s.2)
  ∧ ∀ p' (L : Locals Correction),
      playback.advance s.1 = Some p' → call_body self p' s.2 = Some L →
      StronglySorted generated_before (name <$> hypothesis_trackers L).
Proof.
  intros Hr.
  assert (StronglySorted generated_before (name <$> s.2)) as Hsorted.
  { apply (engine_steps_generation_order _ _ _ Hr);
      [apply population_invariant_nil | constructor]. }
  split; [done|]. intros p' L Hadv Hb.
  eapply generation_order_step; [|done..]. by eapply reachable_invariant.
Qed.

(** X17.  In every state of a run no tracker of the population exceeds the
    similarity threshold against an earlier one, in the playback state of
    the last iteration: the survivors of an iteration are pairwise
    non-redundant. *)
Theorem populations_are_pairwise_dissimilar (first_index : Z) self onsets s :
  reachable first_index self onsets s →
  ForallOrdPairs (dissimilar self s.1) s.2.
Proof.
  intros [->|(s0 & L & _ & _ & Hb & ->)]%reachable_cases; [constructor|].
  destruct (call_body_inv _ _ _ _ Hb) as (_ & _ & Ht & _).
  destruct (call_body_sublists _ _ _ _ Hb) as (_ & Hbest & _).
  eapply ForallOrdPairs_sublist; [exact Hbest|].
  pose proof (greedy_pairwise _ _ _ _ _
                (trim_greedy self s.1 (hypothesis_trackers L))) as Hf.
  by rewrite Ht in Hf.
Qed.

(** X18.  With a non-negative [max_hypotheses] the population of every
    state of a run, and the returned mapping, has at most
    [max_hypotheses] trackers. *)
Theorem populations_are_bounded (first_index : Z) self onsets :
  0 ≤ max_hypotheses self →
  (∀ s, reachable first_index self onsets s →
        Z.of_nat (length s.2) ≤ max_hypotheses self)
  ∧ (∀ m, call first_index self onsets = Some m →
          Z.of_nat (size m) ≤ max_hypotheses self).
Proof.
  intros Hk.
  assert (∀ s, reachable first_index self onsets s →
               Z.of_nat (length s.2) ≤ max_hypotheses self) as Hbound.
  { intros s [->|(s0 & L & _ & _ & Hb & ->)]%reachable_cases; [simpl; lia|].
    destruct (call_body_inv _ _ _ _ Hb) as (_ & _ & _ & Hs).
    rewrite (split_k_best_count _ _ _ _ Hs). unfold slice_count.
    destruct (Z.leb_spec 0 (max_hypotheses self)); lia. }
  split; [done|].
  intros m (p & r & Hr & _ & -> & _)%call_result. exact (Hbound _ Hr).
Qed.

(** X19.  An iteration loses nothing when no tracker of the updated
    population exceeds the similarity threshold against an earlier one and
    [max_hypotheses] is at least its size: the next population is the
    updated population. *)
Theorem iteration_without_pruning self p hts (L : Locals Correction) :
  call_body self p hts = Some L →
  ForallOrdPairs (dissimilar self p) (hypothesis_trackers L) →
  Z.of_nat (length (hypothesis_trackers L)) ≤ max_hypotheses self →
  k_best_hs L = hypothesis_trackers L
  ∧ kept_hs L = hypothesis_trackers L
  ∧ trimmed_hs L = [] ∧ other_hs L = [].
Proof.
  intros (_ & _ & Ht & Hs)%call_body_inv Hf Hk.
  pose proof (trim_greedy self p (hypothesis_trackers L)) as HG.
  rewrite Ht in HG. simpl in HG.
  destruct (greedy_nothing_similar _ _ _ _ _ HG Hf) as [HK HT].
  rewrite HK in Hs. by destruct (split_k_best_room _ _ _ _ Hk Hs) as [-> ->].
Qed.

End RunsMore.

(** * The further properties on the sample runs *)

(** X5 on the kept trackers [(0, 1)] and [(0, 2)] with [max_hypotheses = 5]. *)
Lemma selection_with_room_keeps_all_witness :
  ∃ L, call_body (sample_config 5) (sample_cursor 3) (sample_state 5 2).2
         = Some L
       ∧ name <$> kept_hs L = [(0, 1); (0, 2)]
       ∧ k_best_hs L = kept_hs L ∧ other_hs L = [].
Proof.
  eexists. split; [vm_compute; reflexivity|].
  split; [vm_compute; reflexivity|].
  match goal with
  | |- context [k_best_hs ?L] =>
      exact (selection_with_room_keeps_all (sample_config 5) (kept_hs L)
               (k_best_hs L) (other_hs L)
               ltac:(vm_compute; discriminate) ltac:(vm_compute; reflexivity))
  end.
Defined.

(** X6 on the same trackers with [max_hypotheses = 1]. *)
Lemma selection_is_idempotent_witness :
  ∃ L, call_body (sample_config 1) (sample_cursor 3) (sample_state 1 2).2
         = Some L
       ∧ name <$> k_best_hs L = [(0, 1)]
       ∧ _split_k_best_hypotheses (sample_config 1) (k_best_hs L)
         = Some (k_best_hs L, []).
Proof.
  eexists. split; [vm_compute; reflexivity|].
  split; [vm_compute; reflexivity|].
  match goal with
  | |- context [k_best_hs ?L] =>
      exact (selection_is_idempotent (sample_config 1) (kept_hs L)
               (k_best_hs L) (other_hs L)
               ltac:(vm_compute; discriminate) ltac:(vm_compute; reflexivity))
  end.
Defined.

(** X7 on the same trackers with [max_hypotheses = -1]: one of the two is
    retained. *)
Lemma selection_follows_the_slice_witness :
  ∃ L, call_body (sample_config (-1)) (sample_cursor 3) (sample_state 2 2).2
         = Some L
       ∧ length (kept_hs L) = 2%nat
       ∧ length (k_best_hs L) = 1%nat.
Proof.
  eexists. split; [vm_compute; reflexivity|].
  split; [vm_compute; reflexivity|].
  match goal with
  | |- context [k_best_hs ?L] =>
      destruct (selection_follows_the_slice (sample_config (-1)) (kept_hs L)
                  (k_best_hs L) (other_hs L)) as (_ & Hneg & _)
  end; [vm_compute; reflexivity|].
  rewrite Hneg; [vm_compute; reflexivity | vm_compute; reflexivity].
Defined.

(** X8 on the two trackers that the flat configuration generates when
    index 3 is discovered, with [max_hypotheses = 1]. *)
Lemma selection_of_ties_keeps_the_oldest_witness :
  ∃ L, call_body (flat_config 1) (sample_cursor 3) [] = Some L
       ∧ name <$> kept_hs L = [(0, 2); (1, 2)]
       ∧ k_best_hs L = take 1 (kept_hs L)
       ∧ other_hs L = drop 1 (kept_hs L).
Proof.
  eexists. split; [vm_compute; reflexivity|].
  split; [vm_compute; reflexivity|].
  match goal with
  | |- context [k_best_hs ?L] =>
      assert (Forall (λ h, conf h = Some 1%Q) (kept_hs L)) as Hall
        by (repeat constructor);
      apply (selection_of_ties_keeps_the_oldest (flat_config 1) (kept_hs L)
               (k_best_hs L) (other_hs L))
  end; [vm_compute; discriminate | vm_compute; reflexivity |].
  intros a b ca cb Ha Hb Hca Hcb.
  eapply Forall_forall in Ha; [|exact Hall].
  eapply Forall_forall in Hb; [|exact Hall].
  simpl in Ha, Hb. rewrite Ha in Hca. rewrite Hb in Hcb.
  inversion Hca. inversion Hcb. reflexivity.
Defined.

(** X9 on the kept trackers [(0, 1)] (confidence 2) and [(0, 2)]
    (confidence 1) with [max_hypotheses = 1]. *)
Lemma selection_retains_a_best_witness :
  ∃ L, call_body (sample_config 1) (sample_cursor 3) (sample_state 1 2).2
         = Some L
       ∧ ∃ r cr, r ∈ k_best_hs L ∧ conf r = Some cr
                 ∧ ∀ h c, h ∈ kept_hs L → conf h = Some c → (c <= cr)%Q.
Proof.
  eexists. split; [vm_compute; reflexivity|].
  match goal with
  | |- context [k_best_hs ?L] =>
      apply (selection_retains_a_best (sample_config 1) (kept_hs L)
               (k_best_hs L) (other_hs L))
  end; [vm_compute; discriminate | discriminate | vm_compute; reflexivity].
Defined.

(** X10 on the population of the sample run after three iterations. *)
Lemma selection_sort_is_unambiguous_witness :
  ∃ info,
    mapM (λ x : nat * HypothesisTracker (Q * Q),
            c ← conf x.2; Some ((-1 * c)%Q, x.1))
      (enumerate (sample_state 2 3).2) = Some info
    ∧ length info = 2%nat
    ∧ info = sorted info.
Proof.
  eexists. split; [vm_compute; reflexivity|]. split; [reflexivity|].
  match goal with
  | |- ?info = sorted ?info =>
      apply (selection_sort_is_unambiguous (sample_state 2 3).2 info info)
  end; [vm_compute; reflexivity | reflexivity |].
  repeat constructor.
Defined.

(** X12 on the state of the sample run after three iterations. *)
Lemma trackers_evolve_independently_witness :
  reachable 0 (sample_config 2) sample_onsets (sample_state 2 3)
  ∧ playback.onset_times (sample_state 2 3).1 = sample_onsets
  ∧ Forall (λ h,
      ∃ h0, HypothesisTracker_init (name h).1 (name h).2 sample_onsets
              = Some h0
            ∧ h = replay (sample_config 2) sample_onsets h0
                    (seqZ ((name h).2 + 1)
                       (playback.discovered_index (sample_state 2 3).1
                        - (name h).2))
            ∧ beta h = beta h0
            ∧ origin_onsets h = origin_onsets h0
            ∧ onset_times h = sample_onsets) (sample_state 2 3).2.
Proof.
  assert (reachable 0 (sample_config 2) sample_onsets (sample_state 2 3))
    as Hr by (apply sample_state_reachable; vm_compute; eexists; reflexivity).
  split; [exact Hr|].
  exact (trackers_evolve_independently 0 (sample_config 2) sample_onsets
           (sample_state 2 3) Hr).
Defined.

(** X13 on the same state: [(0, 1)] has the indices 2 and 3 in its
    histories, [(0, 2)] the index 3. *)
Lemma histories_record_every_step_witness :
  reachable 0 (sample_config 2) sample_onsets (sample_state 2 3)
  ∧ (λ h, (name h, (confs h).*1)) <$> (sample_state 2 3).2
    = [((0, 1), [2; 3]); ((0, 2), [3])]
  ∧ Forall (λ h,
      (corr h).*1 = seqZ ((name h).2 + 1)
                      (playback.discovered_index (sample_state 2 3).1
                       - (name h).2)
      ∧ (confs h).*1 = seqZ ((name h).2 + 1)
                         (playback.discovered_index (sample_state 2 3).1
                          - (name h).2)
      ∧ Z.of_nat (length (confs h))
          = playback.discovered_index (sample_state 2 3).1 - (name h).2
      ∧ 0 < playback.discovered_index (sample_state 2 3).1 - (name h).2)
      (sample_state 2 3).2.
Proof.
  assert (reachable 0 (sample_config 2) sample_onsets (sample_state 2 3))
    as Hr by (apply sample_state_reachable; vm_compute; eexists; reflexivity).
  split; [exact Hr|]. split; [vm_compute; reflexivity|].
  exact (histories_record_every_step 0 (sample_config 2) sample_onsets
           (sample_state 2 3) Hr).
Defined.

(** X14 on the sample run. *)
Lemma returned_trackers_have_a_confidence_witness :
  ∃ m, call 0 (sample_config 2) sample_onsets = Some m
       ∧ size m = 2%nat
       ∧ ∃ d, ∀ key h, m !! key = Some h →
                ∃ c, conf h = Some c ∧ last (confs h) = Some (d, c).
Proof.
  eexists. split; [vm_compute; reflexivity|].
  split; [vm_compute; reflexivity|].
  apply (returned_trackers_have_a_confidence 0 (sample_config 2)
           sample_onsets).
  vm_compute. reflexivity.
Defined.

(** X15 on the key [(0, 2)] of the sample run. *)
Lemma returned_keys_respect_the_period_range_witness :
  ∃ m h, call 0 (sample_config 2) sample_onsets = Some m
         ∧ m !! (0, 2) = Some h
         ∧ ∃ a b, py_getitem sample_onsets 2 = Some a
                  ∧ py_getitem sample_onsets 0 = Some b
                  ∧ (min_delta (sample_config 2) <= a - b)%Q
                  ∧ (a - b <= max_delta (sample_config 2))%Q.
Proof.
  eexists. eexists. split; [vm_compute; reflexivity|].
  split; [vm_compute; reflexivity|].
  match goal with
  | |- context [min_delta ?c] =>
      eapply (returned_keys_respect_the_period_range 0 c sample_onsets)
  end; vm_compute; reflexivity.
Defined.

(** X16 on the state of the sample run after three iterations. *)
Lemma populations_are_in_generation_order_witness :
  reachable 0 (sample_config 2) sample_onsets (sample_state 2 3)
  ∧ StronglySorted generated_before (name <$> (sample_state 2 3).2).
Proof.
  assert (reachable 0 (sample_config 2) sample_onsets (sample_state 2 3))
    as Hr by (apply sample_state_reachable; vm_compute; eexists; reflexivity).
  split; [exact Hr|].
  exact (proj1 (populations_are_in_generation_order 0 (sample_config 2)
                  sample_onsets (sample_state 2 3) Hr)).
Defined.

(** X17 on the state of the sample run after four iterations, in which two
    of four trackers were trimmed. *)
Lemma populations_are_pairwise_dissimilar_witness :
  reachable 0 (sample_config 2) sample_onsets (sample_state 2 4)
  ∧ name <$> (sample_state 2 4).2 = [(0, 1); (0, 2)]
  ∧ ForallOrdPairs (dissimilar (sample_config 2) (sample_state 2 4).1)
      (sample_state 2 4).2.
Proof.
  assert (reachable 0 (sample_config 2) sample_onsets (sample_state 2 4))
    as Hr by (apply sample_state_reachable; vm_compute; eexists; reflexivity).
  split; [exact Hr|]. split; [vm_compute; reflexivity|].
  exact (populations_are_pairwise_dissimilar 0 (sample_config 2) sample_onsets
           (sample_state 2 4) Hr).
Defined.

(** X18 on the sample run with [max_hypotheses = 1]. *)
Lemma populations_are_bounded_witness :
  0 ≤ max_hypotheses (sample_config 1)
  ∧ ∀ m, call 0 (sample_config 1) sample_onsets = Some m →
         Z.of_nat (size m) ≤ max_hypotheses (sample_config 1).
Proof.
  assert (0 ≤ max_hypotheses (sample_config 1)) as Hk
    by (vm_compute; discriminate).
  split; [exact Hk|].
  exact (proj2 (populations_are_bounded 0 (sample_config 1) sample_onsets Hk)).
Defined.

(** X19 on the iteration of the flat configuration that discovers index 3
    from an empty population. *)
Lemma iteration_without_pruning_witness :
  ∃ L, call_body (flat_config 10) (sample_cursor 3) [] = Some L
       ∧ name <$> hypothesis_trackers L = [(0, 2); (1, 2)]
       ∧ k_best_hs L = hypothesis_trackers L.
Proof.
  eexists. split; [vm_compute; reflexivity|].
  split; [vm_compute; reflexivity|].
  match goal with
  | |- context [k_best_hs ?L] =>
      destruct (iteration_without_pruning (flat_config 10) (sample_cursor 3)
                  [] L) as (Hbest & _)
  end; [vm_compute; reflexivity | | vm_compute; discriminate | exact Hbest].
  repeat constructor; vm_compute; discriminate.
Defined.
